(** * Video transcription and analysis backend: queue, recovery, dispatch

    A shallow embedding of the background pipeline of the backend
    ([app/services/transcription_service.py], [app/main.py]) and of the
    credential-rotating dispatcher ([app/services/gemini_service.py]),
    together with the properties the specification states about them.

    Python values are modelled as follows.
    - [str] is a sequence of Unicode code points ([list N]); literals are
      written as in the source and decoded from UTF-8 by [py].
    - An exception is a record of its class name and of [str(e)].
    - A computation that may raise returns a [pyresult]; stateful code is
      a function from the state to a [pyresult] and the new state.
    - The SQL tables read and written here are finite maps on their unique
      key. *)

From Stdlib Require Import NArith ZArith Lia String Ascii.
From stdpp Require Import strings gmap list.

Set Default Proof Using "Type".
Set Warnings "-register-all".

(** ** Python strings *)

Module PyStr.

Definition codepoint := N.
Definition str := list codepoint.

(** UTF-8 decoding of a source literal into code points. *)
Fixpoint utf8_decode (bs : list N) : str :=
  match bs with
  | [] => []
  | b0 :: r0 =>
    if (b0 <? 128)%N then b0 :: utf8_decode r0
    else if (b0 <? 224)%N then
      match r0 with
      | b1 :: r1 => ((b0 - 192) * 64 + (b1 - 128))%N :: utf8_decode r1
      | _ => []
      end
    else if (b0 <? 240)%N then
      match r0 with
      | b1 :: b2 :: r2 =>
        ((b0 - 224) * 4096 + (b1 - 128) * 64 + (b2 - 128))%N :: utf8_decode r2
      | _ => []
      end
    else
      match r0 with
      | b1 :: b2 :: b3 :: r3 =>
        ((b0 - 240) * 262144 + (b1 - 128) * 4096 + (b2 - 128) * 64 + (b3 - 128))%N
          :: utf8_decode r3
      | _ => []
      end
  end.

Definition py (s : string) : str :=
  utf8_decode (map N_of_ascii (list_ascii_of_string s)).

(** [str.isspace] on one code point: the white-space table of CPython
    ([_PyUnicode_IsWhitespace]). *)
Definition isspace (c : codepoint) : bool :=
  ((9 <=? c) && (c <=? 13) || (28 <=? c) && (c <=? 32) || (c =? 133) || (c =? 160)
   || (c =? 5760) || (8192 <=? c) && (c <=? 8202) || (c =? 8232) || (c =? 8233)
   || (c =? 8239) || (c =? 8287) || (c =? 12288))%N.

Fixpoint lstrip (s : str) : str :=
  match s with
  | [] => []
  | c :: r => if isspace c then lstrip r else s
  end.

Definition rstrip (s : str) : str := rev (lstrip (rev s)).

(** [s.strip()] *)
Definition strip (s : str) : str := rstrip (lstrip s).

(** [s.startswith(p)] *)
Fixpoint startswith (s p : str) {struct p} : bool :=
  match p, s with
  | [], _ => true
  | _ :: _, [] => false
  | a :: p', b :: s' => (a =? b)%N && startswith s' p'
  end.

(** [needle in hay] *)
Fixpoint contains (needle hay : str) : bool :=
  startswith hay needle ||
  match hay with
  | [] => false
  | _ :: r => contains needle r
  end.

(** [s.split(sep)] for a one-character separator. *)
Fixpoint split_on (sep : codepoint) (s : str) : list str :=
  match s with
  | [] => [[]]
  | c :: r =>
    if (c =? sep)%N then [] :: split_on sep r
    else match split_on sep r with
         | l :: ls => (c :: l) :: ls
         | [] => [[c]]
         end
  end.

(** [sep.join(ls)] *)
Fixpoint join (sep : str) (ls : list str) : str :=
  match ls with
  | [] => []
  | [l] => l
  | l :: ls' => l ++ sep ++ join sep ls'
  end.

(** [s[:n]] *)
Definition slice_to (n : nat) (s : str) : str := take n s.

(** [s.lower()] restricted to the ASCII letters; the dispatcher takes the
    lowering function as a parameter and this is the instance used in the
    examples. *)
Definition ascii_lower (s : str) : str :=
  map (fun c => if ((65 <=? c) && (c <=? 90))%N then (c + 32)%N else c) s.

Definition NL : codepoint := 10%N.

End PyStr.

Import PyStr.

(** ** Exceptions and results *)

Record pyexc := mk_exc { exc_type : string; exc_str : str }.

Inductive pyresult (A : Type) : Type :=
| Ok (a : A)
| Raise (e : pyexc).
Arguments Ok {A} a.
Arguments Raise {A} e.

Definition RuntimeError (msg : str) : pyexc := mk_exc "RuntimeError" msg.

(** [isinstance(e, cls)] for a class without subclasses. *)
Definition is_instance (e : pyexc) (cls : string) : bool :=
  String.eqb (exc_type e) cls.

(** Values produced by [json.loads] and the dictionaries built by hand. *)
Inductive pyvalue : Type :=
| PyNone
| PyBool (b : bool)
| PyInt (z : Z)
| PyFloat (repr : str)
| PyStr (s : str)
| PyList (items : list pyvalue)
| PyDict (items : list (str * pyvalue)).

(** ** State and exception monad

    Python keeps every side effect made before an exception is raised, so
    a computation returns the new state on both outcomes. *)

Definition M (S A : Type) : Type := S -> pyresult A * S.

Definition ret {S A} (a : A) : M S A := fun s => (Ok a, s).

Definition raise {S A} (e : pyexc) : M S A := fun s => (Raise e, s).

Definition bind {S A B} (c : M S A) (k : A -> M S B) : M S B :=
  fun s =>
    match c s with
    | (Ok a, s') => k a s'
    | (Raise e, s') => (Raise e, s')
    end.

Definition get {S} : M S S := fun s => (Ok s, s).

Definition modify {S} (f : S -> S) : M S unit := fun s => (Ok tt, f s).

(** A pure computation that may raise, run inside [M]. *)
Definition lift {S A} (r : pyresult A) : M S A := fun s => (r, s).

(** [try: c  except Exception as e: h e] *)
Definition try_except {S A} (c : M S A) (h : pyexc -> M S A) : M S A :=
  fun s =>
    match c s with
    | (Ok a, s') => (Ok a, s')
    | (Raise e, s') => h e s'
    end.

(** [try: c  finally: f] *)
Definition try_finally {S A} (c : M S A) (f : M S unit) : M S A :=
  fun s =>
    match c s with
    | (r, s') =>
      match f s' with
      | (Ok _, s'') => (r, s'')
      | (Raise e, s'') => (Raise e, s'')
      end
    end.

Declare Scope py_scope.
Delimit Scope py_scope with py.
Notation "x <- c ;; k" := (bind c (fun x => k))
  (at level 100, c at next level, right associativity) : py_scope.
Notation "c ;; k" := (bind c (fun _ => k))
  (at level 100, right associativity) : py_scope.
Open Scope py_scope.

(** ** [app/services/gemini_service.py] *)

Module Gemini.

(** The module global [_key_index], and the log of the credentials handed
    to the external service, one entry per call attempt. *)
Record gemini_state := mk_gemini
  { _key_index : nat;
    api_calls : list str }.

Definition NO_KEY_MSG : str := Eval vm_compute in py "APIキーが設定されていません".

Definition CONFIG_MSG : str := Eval vm_compute in
  py "Gemini APIキーが設定されていません。設定画面からAPIキーを追加してください。".

Definition EXHAUSTED_PREFIX : str := Eval vm_compute in
  py "全てのAPIキーがレート制限に達しました: ".

Definition FENCE : str := Eval vm_compute in py "```".

(** [_next_key]: round-robin selection; the test and the increment are
    one critical section of [_key_lock]. *)
Definition _next_key (keys : list str) : M gemini_state str :=
  fun st =>
    match keys with
    | [] => (Raise (RuntimeError NO_KEY_MSG), st)
    | _ :: _ =>
      let idx := _key_index st mod length keys in
      let st' := mk_gemini (S (_key_index st)) (api_calls st) in
      match keys !! idx with
      | Some k => (Ok k, st')
      | None => (Raise (mk_exc "IndexError" (py "list index out of range")), st')
      end
    end.

(** The dictionary [_parse_response] returns when decoding fails. *)
Definition fallback (summary : str) : pyvalue :=
  PyDict [ (py "summary", PyStr summary);
           (py "effective_keywords", PyList []);
           (py "effective_phrases", PyList []);
           (py "correlation_insights", PyList []);
           (py "recommendations", PyList []);
           (py "funnel_suggestions", PyList []) ].

(** The text [_parse_response] hands to the decoder: [text.strip()], and
    when that starts with a fence, the lines after the first one, without
    the last one if that is a closing fence. *)
Definition cleaned_text (text : str) : str :=
  let cleaned := strip text in
  if startswith cleaned FENCE then
    let lines := split_on NL cleaned in
    let lines := tail lines in
    let lines :=
      match last lines with
      | Some l => if bool_decide (strip l = FENCE) then removelast lines else lines
      | None => lines
      end in
    join [NL] lines
  else cleaned.

Section Dispatch.

(** Collaborators outside the repository: [str.lower], [json.loads]
    (which raises on malformed input) and the call
    [genai.Client(api_key=key).models.generate_content(...)], whose answer
    [response.text] may depend on the credential and on how many calls
    were made before. *)
Variable str_lower : str -> str.
Variable json_loads : str -> pyresult pyvalue.
Variable generate_content : str -> str -> str -> nat -> pyresult str.

Definition _parse_response (text : str) : pyresult pyvalue :=
  let cleaned := cleaned_text text in
  match json_loads cleaned with
  | Ok v => Ok v
  | Raise e =>
    if is_instance e "JSONDecodeError" then Ok (fallback cleaned) else Raise e
  end.

(** The test of the [except] branch on [str(e).lower()]. *)
Definition is_rate_limit_error (e : pyexc) : bool :=
  let err_str := str_lower (exc_str e) in
  contains (py "429") err_str || contains (py "quota") err_str
  || contains (py "rate") err_str || contains (py "resource_exhausted") err_str.

Definition call_service (key model prompt : str) : M gemini_state str :=
  fun st =>
    (generate_content key model prompt (length (api_calls st)),
     mk_gemini (_key_index st) (api_calls st ++ [key])).

(** [f"{last_error}"] *)
Definition format_error (last_error : option pyexc) : str :=
  match last_error with
  | Some e => exc_str e
  | None => py "None"
  end.

(** The loop [for attempt in range(len(keys))] with [n] iterations left,
    followed by the final [raise]. *)
Fixpoint attempts (n : nat) (keys : list str) (model prompt : str)
    (last_error : option pyexc) : M gemini_state pyvalue :=
  match n with
  | O => raise (RuntimeError (EXHAUSTED_PREFIX ++ format_error last_error))
  | S n' =>
    key <- _next_key keys ;;
    try_except
      (text <- call_service key model prompt ;; lift (_parse_response text))
      (fun e =>
         if is_rate_limit_error e
         then attempts n' keys model prompt (Some e)
         else raise e)
  end.

(** [analyze_cm_effectiveness], from the pool and model identifier that
    [_get_keys_and_model] has just read and the prompt that
    [_build_analysis_prompt] has built. *)
Definition analyze_cm_effectiveness (keys : list str) (model prompt : str)
    : M gemini_state pyvalue :=
  match keys with
  | [] => raise (RuntimeError CONFIG_MSG)
  | _ :: _ => attempts (length keys) keys model prompt None
  end.

End Dispatch.

End Gemini.

(** ** [app/services/transcription_service.py] *)

Module Transcription.

(** Floating-point seconds (clock readings, segment bounds) are carried as
    fixed-point ticks; the only arithmetic on them is a difference. *)
Definition pyfloat := Z.

(** The columns of [Video] the pipeline reads or writes. *)
Record Video := mk_video
  { filename : str;
    filepath : str;
    status : str;
    error_message : option str }.

Record TranscriptionSegment := mk_segment
  { start_time : pyfloat;
    end_time : pyfloat;
    seg_text : str }.

(** A [Transcription] row with the segments that reference it. *)
Record Transcription := mk_transcription
  { full_text : str;
    language : str;
    model_used : str;
    processing_time_seconds : pyfloat;
    segments : list TranscriptionSegment }.

(** The dictionary returned by the engine: ["text"] is required,
    ["language"] and ["segments"] are read with [.get]. *)
Record whisper_result := mk_result
  { r_text : str;
    r_language : option str;
    r_segments : option (list TranscriptionSegment) }.

Definition UPLOADED : str := Eval vm_compute in py "uploaded".
Definition TRANSCRIBING : str := Eval vm_compute in py "transcribing".
Definition TRANSCRIBED : str := Eval vm_compute in py "transcribed".
Definition ERROR : str := Eval vm_compute in py "error".
Definition MODEL_LOADING : str := Eval vm_compute in py "model_loading".

(** What lies outside the repository: the settings, the engine, and the
    faults of the database.  [load_model name n] is the [n]-th call of
    [whisper.load_model]; [transcribe m path lang] is
    [model.transcribe(path, language=lang)] on instance [m];
    [commit_fault n] is the exception the [n]-th [db.commit()] raises, if
    any. *)
Record environment := mk_env
  { WHISPER_MODEL : str;
    WHISPER_LANGUAGE : str;
    load_model : str -> nat -> pyresult unit;
    transcribe : nat -> str -> str -> pyresult whisper_result;
    commit_fault : nat -> option pyexc }.

(** A thread running [_worker]: blocked in [_task_queue.get()], between
    the [get] and the end of the [finally] block of one job, or ended by
    an exception that left the loop. *)
Inductive worker_state :=
| Waiting
| Working (video_id : Z) (path : str)
| Dead (e : pyexc).

(** What an observer of the loop sees: a job taken from the queue, and
    the end of the iteration that handled it. *)
Inductive event :=
| Started (video_id : Z) (path : str)
| Finished (video_id : Z) (path : str).

Inductive log_record :=
| LogLoadingModel
| LogModelLoaded
| LogTranscribed (video_id : Z) (elapsed : pyfloat)
| LogTranscriptionFailed (video_id : Z) (e : pyexc)
| LogMarkErrorFailed (video_id : Z) (e : pyexc)
| LogReenqueued (video_id : Z) (name : str)
| LogReenqueueFailed (video_id : Z) (e : pyexc)
| LogQueryFailed (e : pyexc).

(** The database, the module globals, and the threads of the process. *)
Record world := mk_world
  { videos : gmap Z Video  (* table [videos], by primary key *);
    transcriptions : gmap Z Transcription  (* table [transcriptions], by its unique [video_id] *);
    commits : nat  (* commit attempts made so far *);
    loads : nat  (* engine constructions attempted so far *);
    clock : Z  (* reading of [time.time()] *);
    _model : option nat;
    _model_loading : bool;
    _task_queue : list (Z * str)  (* [queue.Queue], head first *);
    _worker_thread : option nat  (* handle: index into [threads] *);
    _current_video_id : option Z;
    _current_step : str;
    _current_start_time : option Z;
    _queue_video_ids : list Z;
    threads : list worker_state  (* the threads started with target [_worker] *);
    logs : list log_record  (* records passed to [logger] *);
    trace : list event  (* jobs taken and completed, oldest first *) }.

Definition set_videos (x : gmap Z Video) (w : world) : world :=
  mk_world x (transcriptions w) (commits w) (loads w) (clock w) (_model w)
    (_model_loading w) (_task_queue w) (_worker_thread w)
    (_current_video_id w) (_current_step w) (_current_start_time w)
    (_queue_video_ids w) (threads w) (logs w) (trace w).

Definition set_transcriptions (x : gmap Z Transcription) (w : world) : world :=
  mk_world (videos w) x (commits w) (loads w) (clock w) (_model w)
    (_model_loading w) (_task_queue w) (_worker_thread w)
    (_current_video_id w) (_current_step w) (_current_start_time w)
    (_queue_video_ids w) (threads w) (logs w) (trace w).

Definition set_commits (x : nat) (w : world) : world :=
  mk_world (videos w) (transcriptions w) x (loads w) (clock w) (_model w)
    (_model_loading w) (_task_queue w) (_worker_thread w)
    (_current_video_id w) (_current_step w) (_current_start_time w)
    (_queue_video_ids w) (threads w) (logs w) (trace w).

Definition set_loads (x : nat) (w : world) : world :=
  mk_world (videos w) (transcriptions w) (commits w) x (clock w) (_model w)
    (_model_loading w) (_task_queue w) (_worker_thread w)
    (_current_video_id w) (_current_step w) (_current_start_time w)
    (_queue_video_ids w) (threads w) (logs w) (trace w).

Definition set_clock (x : Z) (w : world) : world :=
  mk_world (videos w) (transcriptions w) (commits w) (loads w) x (_model w)
    (_model_loading w) (_task_queue w) (_worker_thread w)
    (_current_video_id w) (_current_step w) (_current_start_time w)
    (_queue_video_ids w) (threads w) (logs w) (trace w).

Definition set_model (x : option nat) (w : world) : world :=
  mk_world (videos w) (transcriptions w) (commits w) (loads w) (clock w) x
    (_model_loading w) (_task_queue w) (_worker_thread w)
    (_current_video_id w) (_current_step w) (_current_start_time w)
    (_queue_video_ids w) (threads w) (logs w) (trace w).

Definition set_model_loading (x : bool) (w : world) : world :=
  mk_world (videos w) (transcriptions w) (commits w) (loads w) (clock w)
    (_model w) x (_task_queue w) (_worker_thread w) (_current_video_id w)
    (_current_step w) (_current_start_time w) (_queue_video_ids w)
    (threads w) (logs w) (trace w).

Definition set_task_queue (x : list (Z * str)) (w : world) : world :=
  mk_world (videos w) (transcriptions w) (commits w) (loads w) (clock w)
    (_model w) (_model_loading w) x (_worker_thread w) (_current_video_id w)
    (_current_step w) (_current_start_time w) (_queue_video_ids w)
    (threads w) (logs w) (trace w).

Definition set_worker_thread (x : option nat) (w : world) : world :=
  mk_world (videos w) (transcriptions w) (commits w) (loads w) (clock w)
    (_model w) (_model_loading w) (_task_queue w) x (_current_video_id w)
    (_current_step w) (_current_start_time w) (_queue_video_ids w)
    (threads w) (logs w) (trace w).

Definition set_current_video_id (x : option Z) (w : world) : world :=
  mk_world (videos w) (transcriptions w) (commits w) (loads w) (clock w)
    (_model w) (_model_loading w) (_task_queue w) (_worker_thread w) x
    (_current_step w) (_current_start_time w) (_queue_video_ids w)
    (threads w) (logs w) (trace w).

Definition set_current_step (x : str) (w : world) : world :=
  mk_world (videos w) (transcriptions w) (commits w) (loads w) (clock w)
    (_model w) (_model_loading w) (_task_queue w) (_worker_thread w)
    (_current_video_id w) x (_current_start_time w) (_queue_video_ids w)
    (threads w) (logs w) (trace w).

Definition set_current_start_time (x : option Z) (w : world) : world :=
  mk_world (videos w) (transcriptions w) (commits w) (loads w) (clock w)
    (_model w) (_model_loading w) (_task_queue w) (_worker_thread w)
    (_current_video_id w) (_current_step w) x (_queue_video_ids w)
    (threads w) (logs w) (trace w).

Definition set_queue_video_ids (x : list Z) (w : world) : world :=
  mk_world (videos w) (transcriptions w) (commits w) (loads w) (clock w)
    (_model w) (_model_loading w) (_task_queue w) (_worker_thread w)
    (_current_video_id w) (_current_step w) (_current_start_time w) x
    (threads w) (logs w) (trace w).

Definition set_threads (x : list worker_state) (w : world) : world :=
  mk_world (videos w) (transcriptions w) (commits w) (loads w) (clock w)
    (_model w) (_model_loading w) (_task_queue w) (_worker_thread w)
    (_current_video_id w) (_current_step w) (_current_start_time w)
    (_queue_video_ids w) x (logs w) (trace w).

Definition set_logs (x : list log_record) (w : world) : world :=
  mk_world (videos w) (transcriptions w) (commits w) (loads w) (clock w)
    (_model w) (_model_loading w) (_task_queue w) (_worker_thread w)
    (_current_video_id w) (_current_step w) (_current_start_time w)
    (_queue_video_ids w) (threads w) x (trace w).

Definition set_trace (x : list event) (w : world) : world :=
  mk_world (videos w) (transcriptions w) (commits w) (loads w) (clock w)
    (_model w) (_model_loading w) (_task_queue w) (_worker_thread w)
    (_current_video_id w) (_current_step w) (_current_start_time w)
    (_queue_video_ids w) (threads w) (logs w) x.

(** The module globals as the import of the module leaves them. *)
Definition boot (vs : gmap Z Video) (ts : gmap Z Transcription) : world :=
  mk_world vs ts 0 0 0 None false [] None None [] None [] [] [] [].

Definition log (r : log_record) : M world unit :=
  modify (fun w => set_logs (logs w ++ [r]) w).

(** [time.time()]: a reading of the clock, which then moves on. *)
Definition time_time : M world pyfloat :=
  fun w => (Ok (clock w), set_clock (clock w + 1)%Z w).

(** [db.query(Video).filter(Video.id == video_id).first()] *)
Definition query_video (video_id : Z) : M world (option Video) :=
  fun w => (Ok (videos w !! video_id), w).

Definition with_status (s : str) (v : Video) : Video :=
  mk_video (filename v) (filepath v) s (error_message v).

Definition with_error (msg : str) (v : Video) : Video :=
  mk_video (filename v) (filepath v) ERROR (Some msg).

(** [l.index(x)] *)
Fixpoint list_index (x : Z) (l : list Z) : option nat :=
  match l with
  | [] => None
  | y :: r => if bool_decide (y = x) then Some 0 else S <$> list_index x r
  end.

(** [l.remove(x)] on a list that holds [x]. *)
Fixpoint list_remove (x : Z) (l : list Z) : list Z :=
  match l with
  | [] => []
  | y :: r => if bool_decide (y = x) then r else y :: list_remove x r
  end.

(** [get_video_queue_position] *)
Definition get_video_queue_position (video_id : Z) (w : world) : option nat :=
  if bool_decide (_current_video_id w = Some video_id) then Some 0
  else match list_index video_id (_queue_video_ids w) with
       | Some i => Some (i + 1)
       | None => None
       end.

(** [t.is_alive()] *)
Definition is_alive (t : nat) (w : world) : bool :=
  match threads w !! t with
  | Some Waiting | Some (Working _ _) => true
  | Some (Dead _) | None => false
  end.

(** [enqueue_transcription] *)
Definition enqueue_transcription (video_id : Z) (path : str) : M world unit :=
  modify (fun w => set_queue_video_ids (_queue_video_ids w ++ [video_id]) w) ;;
  w <- get ;;
  (if match _worker_thread w with
      | None => true
      | Some t => negb (is_alive t w)
      end
   then modify (fun w => set_worker_thread (Some (length (threads w)))
                           (set_threads (threads w ++ [Waiting]) w))
   else ret tt) ;;
  modify (fun w => set_task_queue (_task_queue w ++ [(video_id, path)]) w).

Section Pipeline.

Variable E : environment.

(** The pending changes of a session followed by [db.commit()]: applied
    as a whole, or lost when the commit raises. *)
Definition commit (changes : world -> world) : M world unit :=
  fun w =>
    let w' := set_commits (S (commits w)) w in
    match commit_fault E (commits w) with
    | Some e => (Raise e, w')
    | None => (Ok tt, changes w')
    end.

(** [get_model] *)
Definition get_model : M world nat :=
  w <- get ;;
  match _model w with
  | Some m => ret m
  | None =>
    modify (set_model_loading true) ;;
    log LogLoadingModel ;;
    modify (fun w => set_loads (S (loads w)) w) ;;
    lift (load_model E (WHISPER_MODEL E) (loads w)) ;;
    modify (set_model (Some (loads w))) ;;
    modify (set_model_loading false) ;;
    log LogModelLoaded ;;
    ret (loads w)
  end.

(** [db.add(transcription); db.flush()]: the insert is refused when the
    video already has a transcription ([video_id] is unique). *)
Definition flush_transcription (video_id : Z) : M world unit :=
  fun w =>
    match transcriptions w !! video_id with
    | Some _ =>
      (Raise (mk_exc "IntegrityError"
                (py "UNIQUE constraint failed: transcriptions.video_id")), w)
    | None => (Ok tt, w)
    end.

(** [_transcribe_video] *)
Definition _transcribe_video (video_id : Z) (path : str) : M world unit :=
  try_finally
    (try_except
       (video <- query_video video_id ;;
        match video with
        | None => ret tt
        | Some _ =>
          commit (fun w =>
            set_videos (alter (with_status TRANSCRIBING) video_id (videos w)) w) ;;
          modify (set_current_step MODEL_LOADING) ;;
          start <- time_time ;;
          model <- get_model ;;
          modify (set_current_step TRANSCRIBING) ;;
          result <- lift (transcribe E model path (WHISPER_LANGUAGE E)) ;;
          now <- time_time ;;
          let elapsed := (now - start)%Z in
          let transcription :=
            mk_transcription (r_text result)
              (default (WHISPER_LANGUAGE E) (r_language result))
              (WHISPER_MODEL E) elapsed
              (default [] (r_segments result)) in
          flush_transcription video_id ;;
          commit (fun w =>
            set_videos (alter (with_status TRANSCRIBED) video_id (videos w))
              (set_transcriptions
                 (<[video_id := transcription]> (transcriptions w)) w)) ;;
          log (LogTranscribed video_id elapsed)
        end)
       (fun e => (* db.rollback() *) raise e))
    ((* db.close() *) ret tt).

(** [_mark_error] *)
Definition _mark_error (video_id : Z) (error_msg : str) : M world unit :=
  let truncated :=
    if 500 <? length error_msg then slice_to 500 error_msg else error_msg in
  try_finally
    (try_except
       (video <- query_video video_id ;;
        match video with
        | Some _ =>
          commit (fun w =>
            set_videos (alter (with_error truncated) video_id (videos w)) w)
        | None => ret tt
        end)
       (fun e => log (LogMarkErrorFailed video_id e) (* db.rollback() *)))
    ((* db.close() *) ret tt).

(** The head of one iteration of [_worker]: [_task_queue.get()] and the
    first critical section.  The call blocks on an empty queue. *)
Definition worker_take (t : nat) (w : world) : world :=
  match threads w !! t, _task_queue w with
  | Some Waiting, (video_id, path) :: rest =>
    let w := set_task_queue rest w in
    let w := set_current_video_id (Some video_id) w in
    let w := set_current_start_time (Some (clock w)) w in
    let w :=
      if bool_decide (video_id ∈ _queue_video_ids w)
      then set_queue_video_ids (list_remove video_id (_queue_video_ids w)) w
      else w in
    let w := set_threads (<[t := Working video_id path]> (threads w)) w in
    set_trace (trace w ++ [Started video_id path]) w
  | _, _ => w
  end.

(** The [try]/[except]/[finally] statement of [_worker] for one job. *)
Definition worker_body (video_id : Z) (path : str) : M world unit :=
  try_finally
    (try_except
       (_transcribe_video video_id path)
       (fun e =>
          log (LogTranscriptionFailed video_id e) ;;
          _mark_error video_id (exc_str e)))
    (modify (set_current_video_id None) ;;
     modify (set_current_step []) ;;
     modify (set_current_start_time None)
     (* _task_queue.task_done() *)).

(** The rest of the iteration.  An exception that leaves the statement
    leaves the [while] loop and ends the thread. *)
Definition worker_run (t : nat) (w : world) : world :=
  match threads w !! t with
  | Some (Working video_id path) =>
    let (r, w) := worker_body video_id path w in
    let st := match r with Ok _ => Waiting | Raise e => Dead e end in
    let w := set_threads (<[t := st]> (threads w)) w in
    set_trace (trace w ++ [Finished video_id path]) w
  | _ => w
  end.

(** The process as a transition system: calls of [enqueue_transcription]
    by the request handlers, each taken as a whole, interleaved with the
    steps of the [_worker] threads.  Every step advances the clock. *)
Inductive action :=
| Enqueue (video_id : Z) (path : str)
| Take (t : nat)
| Run (t : nat).

Definition step (w : world) (a : action) : world :=
  let w := set_clock (clock w + 1)%Z w in
  match a with
  | Enqueue video_id path => snd (enqueue_transcription video_id path w)
  | Take t => worker_take t w
  | Run t => worker_run t w
  end.

Definition run (w : world) (acts : list action) : world := foldl step w acts.

End Pipeline.

End Transcription.

(** ** The recovery scan of [app/main.py] *)

Module Recovery.

Import Transcription.

Section Scanner.

Variable E : environment.

(** [Video.status.in_(["uploaded", "transcribing"])] *)
Definition is_stuck (v : Video) : bool :=
  bool_decide (status v = UPLOADED) || bool_decide (status v = TRANSCRIBING).

(** [db.query(Video).filter(...).all()]: the matching rows with their
    primary keys, in the order the table yields them. *)
Definition query_stuck : M world (list (Z * Video)) :=
  fun w => (Ok (List.filter (fun r => is_stuck r.2) (map_to_list (videos w))), w).

Fixpoint for_each {A} (l : list A) (body : A -> M world unit) : M world unit :=
  match l with
  | [] => ret tt
  | x :: r => body x ;; for_each r body
  end.

(** The body of [for v in stuck]. *)
Definition requeue_one (row : Z * Video) : M world unit :=
  let (id, v) := row in
  try_except
    (commit E (fun w =>
       set_videos (alter (with_status UPLOADED) id (videos w)) w) ;;
     enqueue_transcription id (filepath v) ;;
     log (LogReenqueued id (filename v)))
    (fun e => (* db.rollback() *) log (LogReenqueueFailed id e)).

(** [_requeue_incomplete_transcriptions] *)
Definition _requeue_incomplete_transcriptions : M world unit :=
  try_finally
    (try_except
       (stuck <- query_stuck ;; for_each stuck requeue_one)
       (fun e => log (LogQueryFailed e)))
    ((* db.close() *) ret tt).

End Scanner.

End Recovery.

(** ** [get_model] under concurrent callers

    [get_model] takes no lock, so threads that call it at the same time
    interleave statement by statement.  Each thread is at one of the
    statements of the function; the globals are shared.  The construction
    itself is taken to succeed. *)

Module ModelInit.

Inductive pc :=
| Test                  (* if _model is None: *)
| SetLoading            (* _model_loading = True *)
| Load                  (* whisper.load_model(settings.WHISPER_MODEL) *)
| Store (m : nat)       (* _model = <the instance just built> *)
| ClearLoading          (* _model_loading = False *)
| Return                (* return _model *)
| Returned (m : option nat).

Record shared := mk_shared
  { _model : option nat;
    _model_loading : bool;
    constructions : nat }.

Definition advance (p : pc) (g : shared) : pc * shared :=
  match p with
  | Test =>
    (match _model g with None => SetLoading | Some _ => Return end, g)
  | SetLoading => (Load, mk_shared (_model g) true (constructions g))
  | Load =>
    (Store (constructions g),
     mk_shared (_model g) (_model_loading g) (S (constructions g)))
  | Store m => (ClearLoading, mk_shared (Some m) (_model_loading g) (constructions g))
  | ClearLoading => (Return, mk_shared (_model g) false (constructions g))
  | Return => (Returned (_model g), g)
  | Returned m => (Returned m, g)
  end.

(** One statement of thread [t]. *)
Definition sched (c : list pc * shared) (t : nat) : list pc * shared :=
  match c.1 !! t with
  | Some p => let (p', g') := advance p c.2 in (<[t := p']> c.1, g')
  | None => c
  end.

Definition interleave (c : list pc * shared) (schedule : list nat)
    : list pc * shared :=
  foldl sched c schedule.

(** [n] callers at the entry of [get_model] before any engine exists. *)
Definition first_use (n : nat) : list pc * shared :=
  (replicate n Test, mk_shared None false 0).

End ModelInit.

(** ** A reference decoder

    A decoder for the JSON documents made of [null], [true], [false],
    integers, strings without escapes, arrays and objects.  It stands for
    [json.loads] in the examples. *)

Module JsonRef.

Definition json_ws (c : codepoint) : bool :=
  ((c =? 32) || (c =? 9) || (c =? 10) || (c =? 13))%N.

Fixpoint skip_ws (s : str) : str :=
  match s with
  | c :: r => if json_ws c then skip_ws r else s
  | [] => []
  end.

Definition is_digit (c : codepoint) : bool := ((48 <=? c) && (c <=? 57))%N.

Fixpoint digits (acc : Z) (s : str) : Z * str :=
  match s with
  | c :: r =>
    if is_digit c then digits (acc * 10 + Z.of_N (c - 48)) r else (acc, s)
  | [] => (acc, [])
  end.

(** The characters up to the closing quote. *)
Fixpoint string_body (s : str) : option (str * str) :=
  match s with
  | [] => None
  | c :: r =>
    if (c =? 34)%N then Some ([], r)
    else if ((c =? 92) || (c <? 32))%N then None
    else match string_body r with
         | Some (b, r') => Some (c :: b, r')
         | None => None
         end
  end.

Definition literal (word : str) (v : pyvalue) (s : str) : option (pyvalue * str) :=
  if startswith s word then Some (v, drop (length word) s) else None.

Fixpoint value (fuel : nat) (s : str) : option (pyvalue * str) :=
  match fuel with
  | O => None
  | S fuel =>
    match skip_ws s with
    | [] => None
    | c :: r =>
      if (c =? 110)%N then literal (py "null") PyNone (c :: r)
      else if (c =? 116)%N then literal (py "true") (PyBool true) (c :: r)
      else if (c =? 102)%N then literal (py "false") (PyBool false) (c :: r)
      else if (c =? 34)%N then
        match string_body r with
        | Some (b, r') => Some (PyStr b, r')
        | None => None
        end
      else if (c =? 45)%N then
        match r with
        | d :: _ =>
          if is_digit d then let (n, r') := digits 0 r in Some (PyInt (- n), r')
          else None
        | [] => None
        end
      else if is_digit c then
        let (n, r') := digits 0 (c :: r) in Some (PyInt n, r')
      else if (c =? 91)%N then
        match skip_ws r with
        | d :: r' =>
          if (d =? 93)%N then Some (PyList [], r')
          else match elements fuel r with
               | Some (vs, r'') => Some (PyList vs, r'')
               | None => None
               end
        | [] => None
        end
      else if (c =? 123)%N then
        match skip_ws r with
        | d :: r' =>
          if (d =? 125)%N then Some (PyDict [], r')
          else match members fuel r with
               | Some (kvs, r'') => Some (PyDict kvs, r'')
               | None => None
               end
        | [] => None
        end
      else None
    end
  end
with elements (fuel : nat) (s : str) : option (list pyvalue * str) :=
  match fuel with
  | O => None
  | S fuel =>
    match value fuel s with
    | Some (v, r) =>
      match skip_ws r with
      | c :: r' =>
        if (c =? 93)%N then Some ([v], r')
        else if (c =? 44)%N then
          match elements fuel r' with
          | Some (vs, r'') => Some (v :: vs, r'')
          | None => None
          end
        else None
      | [] => None
      end
    | None => None
    end
  end
with members (fuel : nat) (s : str) : option (list (str * pyvalue) * str) :=
  match fuel with
  | O => None
  | S fuel =>
    match skip_ws s with
    | q :: r0 =>
      if (q =? 34)%N then
        match string_body r0 with
        | Some (k, r1) =>
          match skip_ws r1 with
          | c :: r2 =>
            if (c =? 58)%N then
              match value fuel r2 with
              | Some (v, r3) =>
                match skip_ws r3 with
                | d :: r4 =>
                  if (d =? 125)%N then Some ([(k, v)], r4)
                  else if (d =? 44)%N then
                    match members fuel r4 with
                    | Some (kvs, r5) => Some ((k, v) :: kvs, r5)
                    | None => None
                    end
                  else None
                | [] => None
                end
              | None => None
              end
            else None
          | [] => None
          end
        | None => None
        end
      else None
    | [] => None
    end
  end.

Definition JSONDecodeError : pyexc :=
  mk_exc "JSONDecodeError" (py "Expecting value").

Definition loads (s : str) : pyresult pyvalue :=
  match value (S (length s)) s with
  | Some (v, r) =>
    match skip_ws r with
    | [] => Ok v
    | _ :: _ => Raise JSONDecodeError
    end
  | None => Raise JSONDecodeError
  end.

End JsonRef.

(** ** Vocabulary of the statements *)

(** The credential the rotation selects when the cursor reads [c]. *)
Definition credential_at (keys : list str) (c : nat) : str :=
  nth (c mod length keys) keys [].

(** The credentials selected by [m] consecutive selections from cursor [c]. *)
Definition rotation (keys : list str) (c m : nat) : list str :=
  map (fun j => credential_at keys (c + j)) (seq 0 m).

(** The error the final [raise] reports after [m] refused attempts. *)
Definition last_of (m : nat) (errs : nat -> pyexc) (last : option pyexc)
    : option pyexc :=
  match m with
  | O => last
  | S m' => Some (errs m')
  end.

(** A text between a leading fence line (the fence and an optional
    language tag) and a trailing fence line. *)
Definition fenced (lang s : str) : str :=
  Gemini.FENCE ++ lang ++ [NL] ++ s ++ [NL] ++ Gemini.FENCE.

(** A literal written with apostrophes in place of double quotes. *)
Definition dq (s : string) : str :=
  map (fun c => if (c =? 39)%N then 34%N else c) (py s).

(** The jobs submitted by a sequence of steps, in submission order. *)
Definition enqueued (acts : list Transcription.action) : list (Z * str) :=
  flat_map (fun a =>
    match a with
    | Transcription.Enqueue video_id path => [(video_id, path)]
    | _ => []
    end) acts.



(** The trace of a loop that has handled the jobs [fin] one after the
    other, each completed before the next is taken, and is now handling
    [cur], if any. *)
Definition serial_trace (fin : list (Z * str)) (cur : option (Z * str))
    : list Transcription.event :=
  flat_map (fun j => [Transcription.Started j.1 j.2; Transcription.Finished j.1 j.2]) fin
  ++ match cur with
     | Some j => [Transcription.Started j.1 j.2]
     | None => []
     end.

(** The rows the recovery scan visits, in the order it visits them. *)
Definition stuck_rows (w : Transcription.world) : list (Z * Transcription.Video) :=
  List.filter (fun r => Recovery.is_stuck r.2) (map_to_list (Transcription.videos w)).

(** The jobs the scan submits for the rows [rows] when the first of its
    commits is the [c]-th of the process: one for each row whose commit
    succeeds. *)
Fixpoint requeued (fault : nat -> option pyexc) (c : nat)
    (rows : list (Z * Transcription.Video)) : list (Z * str) :=
  match rows with
  | [] => []
  | (id, v) :: rest =>
    match fault c with
    | None => (id, Transcription.filepath v) :: requeued fault (S c) rest
    | Some _ => requeued fault (S c) rest
    end
  end.

(** The jobs of a list that belong to video [id]. *)
Definition jobs_of (id : Z) (jobs : list (Z * str)) : list (Z * str) :=
  List.filter (fun j => bool_decide (j.1 = id)) jobs.

(** A schedule in which the callers of [order] run [get_model] one after
    the other, each through all of its statements. *)
Definition one_by_one (order : list nat) : list nat :=
  flat_map (fun t => replicate 6 t) order.

Section Vocabulary.

Import Transcription.

(** A computation leaves the part [view] of the world unchanged. *)
Definition preserves {X A} (view : world -> X) (c : M world A) : Prop :=
  forall w, view (c w).2 = view w.

(** The fields the scheduler reads: the queue, the worker threads and
    the trace, together with the list of pending ids. *)
Definition sched_view (w : world) :=
  (_task_queue w, _worker_thread w, threads w, trace w, _queue_video_ids w).

(** The persistent store. *)
Definition store_view (w : world) := (videos w, transcriptions w, commits w).

(** At any time either no job was ever submitted and no worker exists, or
    there is one worker thread, alive, which waits or handles the job that
    follows the completed ones in submission order. *)
Inductive worker_inv (jobs : list (Z * str)) (w : world) : Prop :=
| inv_unstarted :
    jobs = [] -> threads w = [] -> _worker_thread w = None ->
    _task_queue w = [] -> trace w = [] ->
    _queue_video_ids w = [] -> _current_video_id w = None ->
    worker_inv jobs w
| inv_waiting fin :
    jobs = fin ++ _task_queue w ->
    threads w = [Waiting] -> _worker_thread w = Some 0 ->
    trace w = serial_trace fin None ->
    _queue_video_ids w = (_task_queue w).*1 -> _current_video_id w = None ->
    worker_inv jobs w
| inv_working fin video_id path :
    jobs = fin ++ (video_id, path) :: _task_queue w ->
    threads w = [Working video_id path] -> _worker_thread w = Some 0 ->
    trace w = serial_trace fin (Some (video_id, path)) ->
    _queue_video_ids w = (_task_queue w).*1 ->
    _current_video_id w = Some video_id ->
    worker_inv jobs w.


(** The engine can be obtained: it is loaded, or its construction
    succeeds. *)
Definition engine_ready (E : environment) (w : world) : Prop :=
  _model w <> None \/ load_model E (WHISPER_MODEL E) (loads w) = Ok tt.

(** The row a successful job stores for the answer [res] of the engine. *)
Definition stored_as (E : environment) (res : whisper_result)
    (tr : Transcription) : Prop :=
  full_text tr = r_text res
  /\ language tr = default (WHISPER_LANGUAGE E) (r_language res)
  /\ model_used tr = WHISPER_MODEL E
  /\ segments tr = default [] (r_segments res).

End Vocabulary.

(** ** Example data *)

Module Examples.

Definition pool2 : list str := [py "key-a"; py "key-b"].
Definition pool3 : list str := [py "key-a"; py "key-b"; py "key-c"].

Definition quota_error : pyexc :=
  mk_exc "ClientError" (py "429 RESOURCE_EXHAUSTED: Quota exceeded").

Definition answer : str := dq "{'summary': 'ok', 'recommendations': []}".

(** A service that answers the third credential only. *)
Definition third_only (key model prompt : str) (n : nat) : pyresult str :=
  if bool_decide (key = py "key-c") then Ok (fenced (py "json") answer)
  else Raise quota_error.

(** A service that has run out of quota for every credential. *)
Definition all_limited (key model prompt : str) (n : nat) : pyresult str :=
  Raise quota_error.

Import Transcription.

Definition broken : str := py "uploads/broken.mp4".
Definition good : str := py "uploads/good.mp4".

Definition library : gmap Z Video :=
  <[1%Z := mk_video (py "broken.mp4") broken UPLOADED None]>
    (<[2%Z := mk_video (py "good.mp4") good UPLOADED None]> ∅).

(** An exception with a text of 600 characters. *)
Definition engine_error : pyexc :=
  mk_exc "RuntimeError" (py "Failed to load audio: " ++ replicate 578 46%N).

Definition whisper_answer : whisper_result :=
  mk_result (py "こんにちは") (Some (py "ja"))
    (Some [mk_segment 0%Z 1500%Z (py "こんにちは")]).

Definition whisper (m : nat) (path lang : str) : pyresult whisper_result :=
  if bool_decide (path = broken) then Raise engine_error else Ok whisper_answer.

Definition locked : pyexc := mk_exc "OperationalError" (py "database is locked").

(** An engine that fails on one file, over a store without faults. *)
Definition env : environment :=
  mk_env (py "large-v3") (py "ja") (fun _ _ => Ok tt) whisper (fun _ => None).

(** The same engine over a store whose second commit fails. *)
Definition flaky_store : environment :=
  mk_env (py "large-v3") (py "ja") (fun _ _ => Ok tt) whisper
    (fun n => if n =? 1 then Some locked else None).

(** A store whose first commit fails. *)
Definition flaky_scan : environment :=
  mk_env (py "large-v3") (py "ja") (fun _ _ => Ok tt) whisper
    (fun n => if n =? 0 then Some locked else None).

(** The worker has taken the job of the broken file. *)
Definition busy (E : environment) : world :=
  run E (boot library ∅) [Enqueue 1 broken; Take 0].

(** The same with two more jobs pending. *)
Definition busy_queue : world :=
  run env (boot library ∅)
    [Enqueue 1 broken; Take 0; Enqueue 2 good; Enqueue 1 broken].

(** The worker has taken a job whose video does not exist. *)
Definition orphan : world :=
  run env (boot library ∅) [Enqueue 99 good; Enqueue 2 good; Take 0].

(** A store as a crash leaves it: one video in each status. *)
Definition crashed : gmap Z Video :=
  <[1%Z := mk_video (py "a.mp4") (py "uploads/a.mp4") UPLOADED None]>
    (<[2%Z := mk_video (py "b.mp4") (py "uploads/b.mp4") TRANSCRIBING None]>
       (<[3%Z := mk_video (py "c.mp4") (py "uploads/c.mp4") TRANSCRIBED None]>
          (<[4%Z := mk_video (py "d.mp4") (py "uploads/d.mp4") ERROR
                      (Some (py "boom"))]> ∅))).

End Examples.


(** ** Further example data *)

Module MoreExamples.

Definition denied : pyexc :=
  mk_exc "ClientError" (py "403 PERMISSION_DENIED: API key not valid").

(** A service that is out of quota for the first credential and refuses
    the others for good. *)
Definition denied_after_quota (key model prompt : str) (n : nat) : pyresult str :=
  if bool_decide (key = py "key-a") then Raise Examples.quota_error
  else Raise denied.

Import Transcription.

Definition out_of_memory : pyexc :=
  mk_exc "RuntimeError" (py "CUDA out of memory").

(** An engine whose first construction fails. *)
Definition cold_start : environment :=
  mk_env (py "large-v3") (py "ja")
    (fun _ n => if n =? 0 then Raise out_of_memory else Ok tt)
    Examples.whisper (fun _ => None).

(** The good file was submitted twice: its first job is over and the
    worker has taken the second. *)
Definition twice : world :=
  run Examples.env (boot Examples.library ∅)
    [Enqueue 2 Examples.good; Enqueue 2 Examples.good; Take 0; Run 0; Take 0].

(** The store of a crash after one job; the worker waits. *)
Definition idle : world :=
  run Examples.env (boot Examples.crashed ∅)
    [Enqueue 1 (py "uploads/a.mp4"); Take 0; Run 0].

(** One job is waiting for the worker. *)
Definition pending : world :=
  run Examples.env (boot Examples.library ∅) [Enqueue 2 Examples.good].

End MoreExamples.


(** ** The status snapshot and the retry endpoint *)

Module TranscriptionMore.

Import Transcription.

(** [str(n)] for a natural number. *)
Fixpoint decimal (fuel n : nat) (acc : str) : str :=
  match fuel with
  | O => acc
  | S fuel =>
    let acc := N.of_nat (48 + n mod 10) :: acc in
    if n <? 10 then acc else decimal fuel (n / 10) acc
  end.

Definition str_of_nat (n : nat) : str := decimal (S n) n [].

(** [HTTPException(status_code, detail)]; its [str] is the code, a colon
    and the detail. *)
Definition HTTPException (status_code : nat) (detail : str) : pyexc :=
  mk_exc "HTTPException" (str_of_nat status_code ++ py ": " ++ detail).



Section Retry.

Variable E : environment.

(** [retry_transcription] of [routers/transcriptions.py]. *)
Definition retry_transcription (video_id : Z) : M world str :=
  video <- query_video video_id ;;
  match video with
  | None => raise (HTTPException 404 (py "動画が見つかりません"))
  | Some v =>
    if negb (bool_decide (status v = ERROR) || bool_decide (status v = UPLOADED))
    then raise (HTTPException 400 (py "書き起こし可能な状態ではありません"))
    else
      w <- get ;;
      (match transcriptions w !! video_id with
       | Some _ =>
         commit E (fun w =>
           set_transcriptions (delete video_id (transcriptions w)) w)
       | None => ret tt
       end) ;;
      commit E (fun w =>
        set_videos
          (alter (fun v => mk_video (filename v) (filepath v) UPLOADED None)
             video_id (videos w)) w) ;;
      enqueue_transcription video_id (filepath v) ;;
      ret (py "書き起こしを再開しました")
  end.

End Retry.

End TranscriptionMore.

Section MoreVocabulary.

Import Transcription.

(** A computation keeps the property [I] of the world. *)
Definition maintains {A} (I : world -> Prop) (c : M world A) : Prop :=
  forall w, I w -> I (c w).2.

(** Every video reported as transcribed has its transcription. *)
Definition transcribed_have_text (w : world) : Prop :=
  forall id v,
    videos w !! id = Some v -> status v = TRANSCRIBED ->
    is_Some (transcriptions w !! id).

End MoreVocabulary.

(** [n] consecutive calls of [_next_key], with the credentials they
    return. *)
Fixpoint next_keys (n : nat) (keys : list str)
    : M Gemini.gemini_state (list str) :=
  match n with
  | O => ret []
  | S n' =>
    k <- Gemini._next_key keys ;;
    ks <- next_keys n' keys ;;
    ret (k :: ks)
  end.


(** ** [app/routers/settings.py] and the seeding of [app/main.py] *)

Module Settings.

Definition GEMINI_KEYS_SETTING : str := Eval vm_compute in py "gemini_api_keys".
Definition GEMINI_MODEL_SETTING : str := Eval vm_compute in py "gemini_model".
Definition DEFAULT_MODEL : str := Eval vm_compute in py "gemini-2.5-flash".
Definition PLACEHOLDER_KEY : str := Eval vm_compute in py "your_api_key_here".

Definition COMMA : codepoint := 44%N.

(** The table [app_settings], whose column [key] is unique, and the
    number of commits made so far. *)
Record store := mk_store
  { app_settings : gmap str str;
    commits : nat }.

(** What the handlers of the credentials return: a dictionary with an
    ["error"], or one with a ["message"] and a ["count"]. *)
Inductive reply :=
| ReplyError (error : str)
| ReplyMessage (message : str) (count : nat).

Definition type_name (v : pyvalue) : string :=
  match v with
  | PyNone => "NoneType"
  | PyBool _ => "bool"
  | PyInt _ => "int"
  | PyFloat _ => "float"
  | PyStr _ => "str"
  | PyList _ => "list"
  | PyDict _ => "dict"
  end.

(** The values that [for k in v] goes through: the elements of a list,
    the keys of a dictionary ([PyDict] holds its items in insertion
    order), the characters of a string. *)
Definition iterate (v : pyvalue) : pyresult (list pyvalue) :=
  match v with
  | PyList items => Ok items
  | PyDict items => Ok (map (fun kv => PyStr kv.1) items)
  | PyStr s => Ok (map (fun c => PyStr [c]) s)
  | _ => Raise (mk_exc "TypeError"
                  (py "'" ++ py (type_name v) ++ py "' object is not iterable"))
  end.

(** [key in keys] for a string [key]: a string equals no value of
    another type. *)
Definition key_in (key : str) (keys : list pyvalue) : bool :=
  existsb (fun v => match v with
                    | PyStr s => bool_decide (s = key)
                    | _ => false
                    end) keys.





Section Handlers.

(** Collaborators outside the repository: [json.loads], [json.dumps],
    the test [x != 0.0] on the text of a floating-point number, and the
    commits of the session, the [n]-th of which may raise. *)
Variable json_loads : str -> pyresult pyvalue.
Variable json_dumps : pyvalue -> str.
Variable float_nonzero : str -> bool.
Variable commit_fault : nat -> option pyexc.

(** [bool(v)] *)
Definition truthy (v : pyvalue) : bool :=
  match v with
  | PyNone => false
  | PyBool b => b
  | PyInt z => negb (z =? 0)%Z
  | PyFloat repr => float_nonzero repr
  | PyStr s => negb (bool_decide (s = []))
  | PyList items => negb (bool_decide (items = []))
  | PyDict items => negb (bool_decide (items = []))
  end.

(** The pending changes of the session followed by [db.commit()]. *)
Definition commit (changes : store -> store) : M store unit :=
  fun st =>
    let st' := mk_store (app_settings st) (S (commits st)) in
    match commit_fault (commits st) with
    | Some e => (Raise e, st')
    | None => (Ok tt, changes st')
    end.

(** [_get_setting] *)
Definition _get_setting (key : str) : M store (option str) :=
  fun st => (Ok (app_settings st !! key), st).

(** [_set_setting]: the row is updated, or added when it is missing. *)
Definition _set_setting (key value : str) : M store unit :=
  commit (fun st => mk_store (<[key := value]> (app_settings st)) (commits st)).

(** [get_api_keys] *)
Definition get_api_keys : M store (list pyvalue) :=
  raw <- _get_setting GEMINI_KEYS_SETTING ;;
  match raw with
  | None => ret []
  | Some [] => ret []
  | Some raw =>
    try_except
      (keys <- lift (json_loads raw) ;;
       items <- lift (iterate keys) ;;
       ret (List.filter truthy items))
      (fun e => if is_instance e "JSONDecodeError" then ret [] else raise e)
  end.


(** [add_api_key] *)
Definition add_api_key (body_key : str) : M store reply :=
  let key := strip body_key in
  if bool_decide (key = []) then ret (ReplyError (py "APIキーが空です"))
  else
    keys <- get_api_keys ;;
    if key_in key keys
    then ret (ReplyError (py "このAPIキーは既に登録されています"))
    else
      let keys := keys ++ [PyStr key] in
      _set_setting GEMINI_KEYS_SETTING (json_dumps (PyList keys)) ;;
      ret (ReplyMessage (py "APIキーを追加しました") (length keys)).

(** [remove_api_key] *)
Definition remove_api_key (index : Z) : M store reply :=
  keys <- get_api_keys ;;
  if ((index <? 0) || (Z.of_nat (length keys) <=? index))%Z
  then ret (ReplyError (py "無効なインデックスです"))
  else
    let keys := delete (Z.to_nat index) keys in
    _set_setting GEMINI_KEYS_SETTING (json_dumps (PyList keys)) ;;
    ret (ReplyMessage (py "APIキーを削除しました") (length keys)).

(** [get_selected_model] *)
Definition get_selected_model : M store str :=
  val <- _get_setting GEMINI_MODEL_SETTING ;;
  match val with
  | None => ret DEFAULT_MODEL
  | Some [] => ret DEFAULT_MODEL
  | Some val => ret val
  end.

(** [_get_keys_and_model] of [services/gemini_service.py] *)
Definition _get_keys_and_model : M store (list pyvalue * str) :=
  keys <- get_api_keys ;;
  model <- get_selected_model ;;
  ret (keys, model).

(** The variables [GEMINI_API_KEYS], [GEMINI_API_KEY] and [GEMINI_MODEL]
    of [app/config.py]. *)
Record config := mk_config
  { GEMINI_API_KEYS : str;
    GEMINI_API_KEY : str;
    GEMINI_MODEL : str }.

(** [[k.strip() for k in s.split(",") if k.strip()]] *)
Definition comma_list (s : str) : list str :=
  List.filter (fun k => negb (bool_decide (k = [])))
    (map strip (split_on COMMA s)).

(** The credentials [_seed_api_keys_from_env] takes from the
    configuration. *)
Definition env_keys (c : config) : list str :=
  let keys :=
    if bool_decide (GEMINI_API_KEYS c = []) then []
    else comma_list (GEMINI_API_KEYS c) in
  if bool_decide (keys = [])
     && negb (bool_decide (GEMINI_API_KEY c = []))
     && negb (bool_decide (GEMINI_API_KEY c = PLACEHOLDER_KEY))
  then [GEMINI_API_KEY c]
  else keys.

(** [_seed_api_keys_from_env] of [app/main.py] *)
Definition _seed_api_keys_from_env (c : config) : M store unit :=
  existing <- _get_setting GEMINI_KEYS_SETTING ;;
  match existing with
  | Some _ => ret tt
  | None =>
    let keys := env_keys c in
    (if bool_decide (keys = []) then ret tt
     else
       commit (fun st =>
         mk_store (<[GEMINI_KEYS_SETTING := json_dumps (PyList (map PyStr keys))]>
                     (app_settings st)) (commits st))) ;;
    existing_model <- _get_setting GEMINI_MODEL_SETTING ;;
    match existing_model with
    | Some _ => ret tt
    | None =>
      if bool_decide (GEMINI_MODEL c = []) then ret tt
      else
        commit (fun st =>
          mk_store (<[GEMINI_MODEL_SETTING := GEMINI_MODEL c]> (app_settings st))
            (commits st))
    end
  end.

End Handlers.

End Settings.


(** ** Example settings *)

Module SettingsExamples.

Import Settings.

(** [json.dumps] on the lists of the examples, whose strings have no
    quote, backslash, control or non-ASCII character. *)
Definition dumps_plain (v : pyvalue) : str :=
  match v with
  | PyList items =>
    [91%N]
    ++ join (py ", ")
         (map (fun k => match k with
                        | PyStr s => [34%N] ++ s ++ [34%N]
                        | _ => py "null"
                        end) items)
    ++ [93%N]
  | _ => py "null"
  end.

(** [x != 0.0] on a decimal text without exponent. *)
Definition nonzero_text (repr : str) : bool :=
  existsb (fun c => (49 <=? c) && (c <=? 57))%N repr.

Definition no_fault (n : nat) : option pyexc := None.

(** Two stored credentials. *)
Definition two_keys : store :=
  mk_store {[ GEMINI_KEYS_SETTING := dq "['AIzaSyA-first-key-0001', 'short']" ]} 0.

Definition first_key : str := py "AIzaSyA-first-key-0001".
Definition short_key : str := py "short".

(** A configuration with a comma-separated list. *)
Definition from_env : config :=
  mk_config (py " key-one , ,key-two") (py "your_api_key_here")
    (py "gemini-2.0-flash").

Definition fresh : store := mk_store ∅ 0.

End SettingsExamples.


(** ** [app/services/analysis_service.py]: the call of the dispatcher *)

Module Analysis.

Import Gemini.

Definition WAIT_MSG : str := Eval vm_compute in
  py "全てのAPIキーがレート制限に達しました。しばらく待ってから再試行してください。".

Definition UNEXPECTED_PREFIX : str := Eval vm_compute in
  py "AI分析中にエラーが発生しました: ".

Section Call.

(** [isinstance(e, RuntimeError)]: the class has subclasses, also outside
    the repository. *)
Variable is_runtime_error : pyexc -> bool.

(** What the two [except] clauses of [run_ai_analysis] raise for the
    exception [e] of the dispatcher. *)
Definition http_error (e : pyexc) : pyexc :=
  if is_runtime_error e then
    let error_msg := exc_str e in
    if contains (py "APIキーが設定されていません") error_msg
    then TranscriptionMore.HTTPException 503 CONFIG_MSG
    else if contains (py "レート制限") error_msg
    then TranscriptionMore.HTTPException 503 WAIT_MSG
    else TranscriptionMore.HTTPException 503 error_msg
  else
    TranscriptionMore.HTTPException 500
      (UNEXPECTED_PREFIX ++ slice_to 200 (exc_str e)).

Variable str_lower : str -> str.
Variable json_loads : str -> pyresult pyvalue.
Variable generate_content : str -> str -> str -> nat -> pyresult str.

(** The [try] statement of [run_ai_analysis] around the dispatcher. *)
Definition run_ai_analysis_call (keys : list str) (model prompt : str)
    : M gemini_state pyvalue :=
  try_except
    (analyze_cm_effectiveness str_lower json_loads generate_content
       keys model prompt)
    (fun e => raise (http_error e)).

End Call.

End Analysis.

(** * Properties *)

(** ** Strings *)

Section StrFacts.









Lemma slice_to_length n s : length (slice_to n s) <= n.
Proof. unfold slice_to. rewrite length_take. lia. Qed.

End StrFacts.

(** ** The dispatcher *)

Module GeminiSpec.

Import Gemini.




Section DispatchFacts.

Variable str_lower : str -> str.
Variable json_loads : str -> pyresult pyvalue.
Variable generate_content : str -> str -> str -> nat -> pyresult str.

Local Abbreviation parse := (_parse_response json_loads).
Local Abbreviation limited := (is_rate_limit_error str_lower).
Local Abbreviation loop := (attempts str_lower json_loads generate_content).
Local Abbreviation dispatch :=
  (analyze_cm_effectiveness str_lower json_loads generate_content).

Lemma next_key_selects keys st :
  keys <> [] ->
  _next_key keys st
  = (Ok (credential_at keys (_key_index st)),
     mk_gemini (S (_key_index st)) (api_calls st)).
Proof.
  intros Hne. unfold _next_key, credential_at.
  destruct keys as [|k ks]; [done|].
  set (keys := k :: ks) in *.
  assert (Hlt : _key_index st mod length keys < length keys)
    by (apply Nat.mod_upper_bound; done).
  destruct (lookup_lt_is_Some_2 keys _ Hlt) as [x Hx].
  rewrite Hx. f_equal. f_equal. symmetry. now apply nth_lookup_Some with (d := []).
Qed.

(** One iteration whose call is refused with a rate-limit error moves on
    to the next iteration with the cursor advanced and the error kept. *)
Lemma attempts_limited n keys model prompt last st e :
  keys <> [] ->
  generate_content (credential_at keys (_key_index st)) model prompt
    (length (api_calls st)) = Raise e ->
  limited e = true ->
  loop (S n) keys model prompt last st
  = loop n keys model prompt (Some e)
      (mk_gemini (S (_key_index st))
         (api_calls st ++ [credential_at keys (_key_index st)])).
Proof.
  intros Hne Hcall Hlim. simpl. unfold bind at 1.
  rewrite next_key_selects by done.
  unfold try_except, bind, call_service. simpl. rewrite Hcall.
  now rewrite Hlim.
Qed.

(** One iteration whose call succeeds returns the parsed answer. *)
Lemma attempts_success n keys model prompt last st text v :
  keys <> [] ->
  generate_content (credential_at keys (_key_index st)) model prompt
    (length (api_calls st)) = Ok text ->
  parse text = Ok v ->
  loop (S n) keys model prompt last st
  = (Ok v,
     mk_gemini (S (_key_index st))
       (api_calls st ++ [credential_at keys (_key_index st)])).
Proof.
  intros Hne Hcall Hparse. simpl. unfold bind at 1.
  rewrite next_key_selects by done.
  unfold try_except, bind, call_service, lift. simpl. rewrite Hcall.
  now rewrite Hparse.
Qed.

Lemma attempts_exhausted m : forall keys model prompt last st errs,
  keys <> [] ->
  (forall j, j < m ->
     generate_content (credential_at keys (_key_index st + j)) model prompt
       (length (api_calls st) + j) = Raise (errs j)
     /\ limited (errs j) = true) ->
  loop m keys model prompt last st
  = (Raise (RuntimeError (EXHAUSTED_PREFIX ++ format_error (last_of m errs last))),
     mk_gemini (_key_index st + m) (api_calls st ++ rotation keys (_key_index st) m)).
Proof.
  induction m as [|m IH]; intros keys model prompt last st errs Hne Hall.
  - simpl. unfold raise, rotation. simpl.
    rewrite Nat.add_0_r, app_nil_r. now destruct st.
  - destruct (Hall 0 ltac:(lia)) as [Hcall Hlim].
    rewrite !Nat.add_0_r in Hcall.
    rewrite (attempts_limited m keys model prompt last st (errs 0)) by done.
    rewrite (IH keys model prompt (Some (errs 0)) _ (fun j => errs (S j)) Hne).
    2:{ intros j Hj. simpl. rewrite length_app. simpl.
        destruct (Hall (S j) ltac:(lia)) as [H1 H2]. split; [|done].
        rewrite <- H1. f_equal; [f_equal|]; lia. }
    simpl _key_index. simpl api_calls. f_equal.
    + do 3 f_equal. destruct m; done.
    + f_equal; [lia|]. rewrite <- app_assoc. f_equal.
      unfold rotation. simpl. rewrite Nat.add_0_r. f_equal.
      rewrite <- seq_shift, map_map. apply map_ext. intros j. f_equal. lia.
Qed.

(** C3.  With a pool of three credentials, when the first two selected
    credentials are refused with rate-limit-classified errors and the third
    answers, the dispatcher makes exactly three attempts, each with the
    next credential of the rotation, and returns the parsed answer of the
    third. *)
Theorem dispatch_third_credential k1 k2 k3 model prompt st e1 e2 text v :
  let keys := [k1; k2; k3] in
  let c := _key_index st in
  let n := length (api_calls st) in
  generate_content (credential_at keys c) model prompt n = Raise e1 ->
  limited e1 = true ->
  generate_content (credential_at keys (c + 1)) model prompt (n + 1) = Raise e2 ->
  limited e2 = true ->
  generate_content (credential_at keys (c + 2)) model prompt (n + 2) = Ok text ->
  parse text = Ok v ->
  dispatch keys model prompt st
  = (Ok v,
     mk_gemini (c + 3)
       (api_calls st ++ [credential_at keys c; credential_at keys (c + 1);
                         credential_at keys (c + 2)])).
Proof.
  intros keys c n H1 L1 H2 L2 H3 Hv.
  assert (Hne : keys <> []) by done.
  change (dispatch keys model prompt st) with (loop 3 keys model prompt None st).
  rewrite (attempts_limited 2 keys model prompt None st e1) by done.
  rewrite (attempts_limited 1 keys model prompt (Some e1) _ e2); try done.
  2:{ simpl. rewrite length_app. simpl. fold c n.
      now replace (S c) with (c + 1) by lia. }
  rewrite (attempts_success 0 keys model prompt (Some e2) _ text v); try done.
  2:{ simpl. rewrite !length_app. simpl. fold c n.
      replace (S (S c)) with (c + 2) by lia.
      now replace (n + 1 + 1) with (n + 2) by lia. }
  simpl. fold c. rewrite <- !app_assoc. simpl.
  replace (S c) with (c + 1) by lia. replace (S (c + 1)) with (c + 2) by lia.
  now replace (S (c + 2)) with (c + 3) by lia.
Qed.

(** C4.  With a non-empty pool of [N] credentials, when every attempt is
    refused with a rate-limit-classified error, the dispatcher makes
    exactly [N] attempts, one per selection of the rotation, and then
    raises the error that reports exhaustion and carries the text of the
    last underlying error. *)
Theorem dispatch_exhausted keys model prompt st errs :
  keys <> [] ->
  (forall j, j < length keys ->
     generate_content (credential_at keys (_key_index st + j)) model prompt
       (length (api_calls st) + j) = Raise (errs j)
     /\ limited (errs j) = true) ->
  dispatch keys model prompt st
  = (Raise (RuntimeError (EXHAUSTED_PREFIX ++ exc_str (errs (length keys - 1)))),
     mk_gemini (_key_index st + length keys)
       (api_calls st ++ rotation keys (_key_index st) (length keys)))
  /\ length (rotation keys (_key_index st) (length keys)) = length keys.
Proof.
  intros Hne Hall. split.
  - destruct keys as [|k ks] eqn:Hk; [done|]. rewrite <- Hk in *.
    assert (Hd : dispatch keys model prompt st
                 = loop (length keys) keys model prompt None st) by now rewrite Hk.
    rewrite Hd, (attempts_exhausted (length keys) keys model prompt None st errs)
      by done.
    do 3 f_equal. rewrite Hk. simpl. now rewrite Nat.sub_0_r.
  - unfold rotation. now rewrite length_map, length_seq.
Qed.

(** C5.  With an empty pool the dispatcher raises the configuration error
    at once: no call is attempted and the rotation cursor is untouched.
    The error differs from the one raised on exhaustion, whatever error
    the latter carries. *)
Theorem dispatch_no_credentials model prompt st :
  dispatch [] model prompt st = (Raise (RuntimeError CONFIG_MSG), st)
  /\ (forall last,
        RuntimeError CONFIG_MSG
        <> RuntimeError (EXHAUSTED_PREFIX ++ format_error last)).
Proof.
  split; [done|]. intros last H. discriminate H.
Qed.


End DispatchFacts.

Lemma dispatch_third_credential_witness :
  analyze_cm_effectiveness ascii_lower JsonRef.loads Examples.third_only
    Examples.pool3 (py "gemini-2.5-flash") (py "prompt") (mk_gemini 3 [])
  = (Ok (PyDict [(py "summary", PyStr (py "ok"));
                 (py "recommendations", PyList [])]),
     mk_gemini 6 [py "key-a"; py "key-b"; py "key-c"]).
Proof.
  apply (dispatch_third_credential ascii_lower JsonRef.loads Examples.third_only
           (py "key-a") (py "key-b") (py "key-c") (py "gemini-2.5-flash")
           (py "prompt") (mk_gemini 3 []) Examples.quota_error
           Examples.quota_error (fenced (py "json") Examples.answer));
    reflexivity.
Defined.

Lemma dispatch_exhausted_witness :
  analyze_cm_effectiveness ascii_lower JsonRef.loads Examples.all_limited
    Examples.pool2 (py "gemini-2.5-flash") (py "prompt") (mk_gemini 5 [])
  = (Raise (RuntimeError (EXHAUSTED_PREFIX ++ exc_str Examples.quota_error)),
     mk_gemini 7 [py "key-b"; py "key-a"]).
Proof.
  apply (dispatch_exhausted ascii_lower JsonRef.loads Examples.all_limited
           Examples.pool2 (py "gemini-2.5-flash") (py "prompt") (mk_gemini 5 [])
           (fun _ => Examples.quota_error)).
  - discriminate.
  - intros j _. split; reflexivity.
Defined.



End GeminiSpec.

(** ** The worker loop *)

Module TranscriptionSpec.

Import Transcription.

(** *** What a computation leaves unchanged *)

Section Frame.

Context {X : Type} (view : world -> X).

Lemma preserves_ret {A} (a : A) : preserves view (ret a).
Proof. done. Qed.

Lemma preserves_raise {A} e : preserves view (@raise world A e).
Proof. done. Qed.

Lemma preserves_get : preserves view get.
Proof. done. Qed.

Lemma preserves_lift {A} (r : pyresult A) : preserves view (lift r).
Proof. done. Qed.

Lemma preserves_modify f : (forall w, view (f w) = view w) -> preserves view (modify f).
Proof. intros Hf w. apply Hf. Qed.

Lemma preserves_bind {A B} (c : M world A) (k : A -> M world B) :
  preserves view c -> (forall a, preserves view (k a)) -> preserves view (bind c k).
Proof.
  intros Hc Hk w. unfold bind. specialize (Hc w).
  destruct (c w) as [[a|e] w1]; simpl in *; [|done].
  now rewrite Hk.
Qed.

Lemma preserves_try_except {A} (c : M world A) h :
  preserves view c -> (forall e, preserves view (h e)) -> preserves view (try_except c h).
Proof.
  intros Hc Hh w. unfold try_except. specialize (Hc w).
  destruct (c w) as [[a|e] w1]; simpl in *; [done|].
  now rewrite Hh.
Qed.

Lemma preserves_try_finally {A} (c : M world A) f :
  preserves view c -> preserves view f -> preserves view (try_finally c f).
Proof.
  intros Hc Hf w. unfold try_finally. specialize (Hc w).
  destruct (c w) as [r w1]. specialize (Hf w1).
  destruct (f w1) as [[[]|e] w2]; simpl in *; congruence.
Qed.

End Frame.

Section PipelineFacts.

Variable E : environment.

Ltac frame_with tac :=
  repeat first
    [ tac
    | apply preserves_bind | apply preserves_try_except
    | apply preserves_try_finally | apply preserves_ret
    | apply preserves_raise | apply preserves_get | apply preserves_lift
    | apply preserves_modify; intros ?; reflexivity
    | match goal with
      | |- preserves _ (match ?x with _ => _ end) => destruct x
      | |- forall _, _ => intros ?
      end ].

Lemma commit_sched changes :
  (forall w, sched_view (changes w) = sched_view w) ->
  preserves sched_view (commit E changes).
Proof.
  intros H w. unfold commit. destruct (commit_fault E (commits w)); [done|].
  simpl. now rewrite H.
Qed.

Lemma get_model_sched : preserves sched_view (get_model E).
Proof. unfold get_model, log. frame_with fail. Qed.

Lemma flush_transcription_sched video_id :
  preserves sched_view (flush_transcription video_id).
Proof. intros w. unfold flush_transcription. now destruct (_ !! _). Qed.

Lemma transcribe_video_sched video_id path :
  preserves sched_view (_transcribe_video E video_id path).
Proof.
  unfold _transcribe_video, log.
  frame_with ltac:(first [ apply commit_sched; intros ?; reflexivity
                         | apply get_model_sched
                         | apply flush_transcription_sched ]);
    intros w; reflexivity.
Qed.

Lemma mark_error_sched video_id msg :
  preserves sched_view (_mark_error E video_id msg).
Proof.
  unfold _mark_error, log.
  frame_with ltac:(apply commit_sched; intros ?; reflexivity);
    intros w; reflexivity.
Qed.

Lemma worker_body_sched video_id path :
  preserves sched_view (worker_body E video_id path).
Proof.
  unfold worker_body, log.
  frame_with ltac:(first [ apply transcribe_video_sched | apply mark_error_sched ]).
Qed.

(** [_mark_error] absorbs every exception of its own. *)
Lemma mark_error_returns video_id msg w :
  exists w', _mark_error E video_id msg w = (Ok tt, w').
Proof.
  unfold _mark_error, try_finally, try_except, bind, query_video, commit, log,
    modify, ret.
  destruct (videos w !! video_id); [|by eexists].
  destruct (commit_fault E (commits w)); by eexists.
Qed.

(** No exception leaves the [try] statement of the loop. *)
Lemma worker_body_returns video_id path w :
  exists w', worker_body E video_id path w = (Ok tt, w').
Proof.
  unfold worker_body, try_finally, try_except.
  destruct (_transcribe_video E video_id path w) as [[[]|e] w1].
  - by eexists.
  - unfold bind at 1. unfold log at 1, modify at 1.
    destruct (mark_error_returns video_id (exc_str e)
                (set_logs (logs w1 ++ [LogTranscriptionFailed video_id e]) w1))
      as [w2 ->].
    by eexists.
Qed.

(** The [finally] block resets the fields of the current job. *)
Lemma worker_body_clears video_id path w :
  let w' := (worker_body E video_id path w).2 in
  _current_video_id w' = None /\ _current_step w' = []
  /\ _current_start_time w' = None.
Proof.
  unfold worker_body, try_finally.
  destruct (try_except _ _ w) as [r w1]. now simpl.
Qed.

(** *** The invariant of the process *)

Lemma serial_trace_finish fin video_id path :
  serial_trace fin (Some (video_id, path)) ++ [Finished video_id path]
  = serial_trace (fin ++ [(video_id, path)]) None.
Proof.
  unfold serial_trace. rewrite flat_map_app. simpl.
  now rewrite !app_nil_r, <- app_assoc.
Qed.



Lemma worker_inv_boot vs ts : worker_inv [] (boot vs ts).
Proof. now apply inv_unstarted. Qed.

Lemma worker_inv_step jobs w a :
  worker_inv jobs w -> worker_inv (jobs ++ enqueued [a]) (step E w a).
Proof.
  intros Hinv. unfold step.
  set (w0 := set_clock (clock w + 1)%Z w).
  assert (Hinv0 : worker_inv jobs w0) by (destruct Hinv; econstructor; eauto).
  clearbody w0. clear Hinv w. rename w0 into w.
  destruct a as [video_id path|t|t]; simpl.
  - (* enqueue_transcription *)
    unfold enqueue_transcription, bind, modify, get, ret, is_alive. simpl.
    destruct Hinv0 as [-> Ht Hw Hq Htr Hids Hcur|fin -> Ht Hw Htr Hids Hcur
                      |fin i p -> Ht Hw Htr Hids Hcur];
      rewrite Hw; simpl; try rewrite Ht; simpl.
    + apply (inv_waiting _ _ []); simpl; try done.
      * now rewrite Hq.
      * now rewrite Hids, Hq.
    + apply (inv_waiting _ _ fin); simpl; try done.
      * now rewrite app_assoc.
      * now rewrite Hids, fmap_app.
    + apply (inv_working _ _ fin i p); simpl; try done.
      * now rewrite <- !app_assoc.
      * now rewrite Hids, fmap_app.
  - (* the head of an iteration *)
    rewrite app_nil_r. unfold worker_take.
    destruct Hinv0 as [-> Ht Hw Hq Htr Hids Hcur|fin -> Ht Hw Htr Hids Hcur
                      |fin i p -> Ht Hw Htr Hids Hcur].
    + rewrite Ht. simpl. now apply inv_unstarted.
    + destruct t as [|t]; rewrite Ht; simpl;
        [|by apply (inv_waiting _ _ fin)].
      destruct (_task_queue w) as [|[i p] rest] eqn:Hq;
        [by apply (inv_waiting _ _ fin); rewrite ?Hq|].
      simpl in Hids. rewrite Hids.
      rewrite bool_decide_eq_true_2 by apply list_elem_of_here.
      apply (inv_working _ _ fin i p); simpl; try done.
      * now rewrite Ht.
      * rewrite Htr. unfold serial_trace. now rewrite app_nil_r.
      * now rewrite bool_decide_eq_true_2.
    + destruct t as [|t]; rewrite Ht; simpl; by apply (inv_working _ _ fin i p).
  - (* the rest of the iteration *)
    rewrite app_nil_r. unfold worker_run.
    destruct Hinv0 as [-> Ht Hw Hq Htr Hids Hcur|fin -> Ht Hw Htr Hids Hcur
                      |fin i p -> Ht Hw Htr Hids Hcur].
    + rewrite Ht. simpl. now apply inv_unstarted.
    + destruct t as [|t]; rewrite Ht; simpl; by apply (inv_waiting _ _ fin).
    + destruct t as [|t]; rewrite Ht; simpl;
        [|by apply (inv_working _ _ fin i p)].
      pose proof (worker_body_sched i p w) as Hframe.
      pose proof (worker_body_clears i p w) as (Hc & _).
      destruct (worker_body_returns i p w) as [w' Hbody].
      rewrite Hbody in *. simpl in *.
      unfold sched_view in Hframe. injection Hframe as Hq' Hw' Ht' Htr' Hids'.
      apply (inv_waiting _ _ (fin ++ [(i, p)])); simpl; try done.
      * now rewrite Hq', <- app_assoc.
      * now rewrite Ht', Ht.
      * congruence.
      * now rewrite Htr', Htr, serial_trace_finish.
      * congruence.
Qed.

Lemma worker_inv_run acts : forall jobs w,
  worker_inv jobs w -> worker_inv (jobs ++ enqueued acts) (run E w acts).
Proof.
  induction acts as [|a acts IH]; intros jobs w Hinv; simpl.
  - now rewrite app_nil_r.
  - apply worker_inv_step with (a := a) in Hinv. apply IH in Hinv.
    simpl in Hinv. now rewrite app_nil_r, <- app_assoc in Hinv.
Qed.





(** *** The status registry *)

Lemma list_index_first x l i :
  l !! i = Some x -> (forall k, k < i -> l !! k <> Some x) ->
  list_index x l = Some i.
Proof.
  revert i. induction l as [|y l IH]; intros i Hi Hfirst; [done|].
  simpl. destruct i as [|i]; simpl in Hi.
  - injection Hi as ->. now rewrite bool_decide_eq_true_2.
  - rewrite bool_decide_eq_false_2.
    + rewrite (IH i Hi); [done|]. intros k Hk. apply (Hfirst (S k)). lia.
    + intros ->. now apply (Hfirst 0); [lia|].
Qed.

Lemma list_index_absent x l : x ∉ l -> list_index x l = None.
Proof.
  induction l as [|y l IH]; intros Hx; [done|].
  apply not_elem_of_cons in Hx as [Hne Hx]. simpl.
  rewrite bool_decide_eq_false_2 by done. now rewrite IH.
Qed.

(** C8.  The position of a job is 0 when it is the current one, otherwise
    its 1-based index in the list of pending ids (1 for the head of the
    list), and [None] when it is neither current nor pending, which is the
    case of every id that was never submitted. *)
Theorem queue_position_spec video_id w :
  (_current_video_id w = Some video_id ->
   get_video_queue_position video_id w = Some 0)
  /\ (_current_video_id w <> Some video_id ->
      (forall i,
         _queue_video_ids w !! i = Some video_id ->
         (forall k, k < i -> _queue_video_ids w !! k <> Some video_id) ->
         get_video_queue_position video_id w = Some (i + 1))
      /\ (forall rest,
            _queue_video_ids w = video_id :: rest ->
            get_video_queue_position video_id w = Some 1)
      /\ (video_id ∉ _queue_video_ids w ->
          get_video_queue_position video_id w = None))
  /\ (forall vs ts acts,
        w = run E (boot vs ts) acts ->
        video_id ∉ (enqueued acts).*1 ->
        get_video_queue_position video_id w = None).
Proof.
  unfold get_video_queue_position. repeat split.
  - intros ->. now rewrite bool_decide_eq_true_2.
  - intros i Hi Hfirst. rewrite bool_decide_eq_false_2 by done.
    now rewrite (list_index_first _ _ i).
  - intros rest Hq. rewrite bool_decide_eq_false_2 by done.
    rewrite Hq. simpl. now rewrite bool_decide_eq_true_2.
  - intros Hout. rewrite bool_decide_eq_false_2 by done.
    now rewrite list_index_absent.
  - intros vs ts acts -> Hnever.
    pose proof (worker_inv_run acts [] (boot vs ts) (worker_inv_boot vs ts)) as Hinv.
    simpl in Hinv. set (w := run E (boot vs ts) acts) in *.
    destruct Hinv as [Hj Ht Hw Hq Htr Hids Hcur|fin Hj Ht Hw Htr Hids Hcur
                     |fin i p Hj Ht Hw Htr Hids Hcur];
      rewrite Hcur, Hids.
    + done.
    + rewrite bool_decide_eq_false_2 by done.
      rewrite list_index_absent; [done|].
      rewrite Hj, fmap_app in Hnever. now apply not_elem_of_app in Hnever.
    + rewrite Hj, fmap_app in Hnever. apply not_elem_of_app in Hnever as [_ Hn].
      simpl in Hn. apply not_elem_of_cons in Hn as [Hne Hn].
      rewrite bool_decide_eq_false_2 by congruence.
      now rewrite list_index_absent.
Qed.

(** *** One job *)

Lemma transcribe_video_unknown video_id path w :
  videos w !! video_id = None ->
  _transcribe_video E video_id path w = (Ok tt, w).
Proof.
  intros Hv. unfold _transcribe_video, try_finally, try_except, bind, query_video.
  now rewrite Hv.
Qed.

Lemma commit_dom changes :
  (forall w, dom (videos (changes w)) = dom (videos w)) ->
  preserves (fun w => dom (videos w)) (commit E changes).
Proof.
  intros H w. unfold commit. destruct (commit_fault E (commits w)); [done|].
  simpl. now rewrite H.
Qed.

Lemma transcribe_video_dom video_id path :
  preserves (fun w => dom (videos w)) (_transcribe_video E video_id path).
Proof.
  unfold _transcribe_video, get_model, log.
  frame_with ltac:(first [ apply commit_dom; intros ?; simpl; apply dom_alter_L
                         | apply flush_transcription_sched ]);
    try (intros w; reflexivity).
  intros w. unfold flush_transcription. now destruct (_ !! _).
Qed.

(** A job that raises belongs to a video that exists, before and after. *)
Lemma transcribe_video_raises video_id path w e w1 :
  _transcribe_video E video_id path w = (Raise e, w1) ->
  is_Some (videos w1 !! video_id).
Proof.
  intros Hrun. apply elem_of_dom.
  pose proof (transcribe_video_dom video_id path w) as Hdom.
  rewrite Hrun in Hdom. simpl in Hdom. rewrite Hdom. apply elem_of_dom.
  destruct (videos w !! video_id) eqn:Hv; [done|].
  now rewrite transcribe_video_unknown in Hrun.
Qed.

Lemma truncated_message msg :
  (if 500 <? length msg then slice_to 500 msg else msg) = take 500 msg.
Proof.
  unfold slice_to. destruct (Nat.ltb_spec 500 (length msg)); [done|].
  now rewrite take_ge.
Qed.

(** What [worker_body] does once [_transcribe_video] has raised. *)
Lemma worker_body_failure video_id path w e w1 :
  _transcribe_video E video_id path w = (Raise e, w1) ->
  exists w2,
    worker_body E video_id path w = (Ok tt, w2)
    /\ match commit_fault E (commits w1) with
       | None =>
         videos w2 = alter (with_error (take 500 (exc_str e))) video_id (videos w1)
       | Some e' =>
         videos w2 = videos w1 /\ LogMarkErrorFailed video_id e' ∈ logs w2
       end.
Proof.
  intros Hrun.
  destruct (transcribe_video_raises _ _ _ _ _ Hrun) as [v Hv].
  unfold worker_body, try_finally, try_except. rewrite Hrun.
  unfold bind at 1. unfold log at 1, modify at 1.
  unfold _mark_error, try_finally, try_except, bind, query_video, commit.
  simpl. rewrite Hv, truncated_message.
  destruct (commit_fault E (commits w1)) as [e'|] eqn:Hc; simpl; rewrite ?Hc.
  - eexists. split; [done|]. split; [done|]. simpl.
    apply elem_of_app. right. apply list_elem_of_here.
  - eexists. split; done.
Qed.

(** C10.  A job whose id matches no video is completed without raising:
    nothing is written to the store and nothing is logged, the fields of
    the current job are cleared, and the worker waits for the next job,
    which it then takes. *)
Theorem unknown_job_skipped t video_id path w :
  threads w !! t = Some (Working video_id path) ->
  videos w !! video_id = None ->
  let w' := worker_run E t w in
  store_view w' = store_view w
  /\ logs w' = logs w
  /\ (_current_video_id w' = None /\ _current_step w' = []
      /\ _current_start_time w' = None)
  /\ threads w' !! t = Some Waiting
  /\ _task_queue w' = _task_queue w
  /\ (forall j p rest,
        _task_queue w = (j, p) :: rest ->
        threads (worker_take t w') !! t = Some (Working j p)
        /\ _current_video_id (worker_take t w') = Some j).
Proof.
  intros Ht Hv w'. subst w'. unfold worker_run. rewrite Ht.
  unfold worker_body, try_finally, try_except.
  rewrite transcribe_video_unknown by done. simpl.
  assert (Hlt : t < length (threads w))
    by (apply lookup_lt_is_Some; eauto).
  do 3 (split; [done|]). split; [now apply list_lookup_insert_eq|].
  split; [done|]. intros j p rest Hq.
  unfold worker_take. simpl. rewrite list_lookup_insert_eq by done.
  rewrite Hq. split.
  - destruct (bool_decide _); simpl;
      apply list_lookup_insert_eq; now rewrite length_insert.
  - now destruct (bool_decide _).
Qed.

Lemma get_model_ready w :
  engine_ready E w ->
  exists m w1, get_model E w = (Ok m, w1) /\ store_view w1 = store_view w.
Proof.
  intros Hready. unfold get_model, bind, get.
  destruct Hready as [Hm|Hl].
  - destruct (_model w) as [m|]; [|done]. by eexists _, _.
  - destruct (_model w) as [m|]; [by eexists _, _|].
    unfold lift. simpl. rewrite Hl. by eexists _, _.
Qed.

(** What [worker_body] does when nothing fails. *)
Lemma worker_body_success video_id path w v res :
  videos w !! video_id = Some v ->
  transcriptions w !! video_id = None ->
  engine_ready E w ->
  (forall m, transcribe E m path (WHISPER_LANGUAGE E) = Ok res) ->
  commit_fault E (commits w) = None ->
  commit_fault E (S (commits w)) = None ->
  exists w2 tr,
    worker_body E video_id path w = (Ok tt, w2)
    /\ videos w2 !! video_id = Some (with_status TRANSCRIBED v)
    /\ transcriptions w2 !! video_id = Some tr
    /\ stored_as E res tr.
Proof.
  intros Hv Htr Hready Hres Hc1 Hc2.
  unfold worker_body, _transcribe_video, try_finally, try_except.
  unfold bind at 1. unfold query_video at 1. rewrite Hv.
  unfold bind at 1. unfold commit at 1. rewrite Hc1.
  unfold bind at 1. unfold modify at 1.
  unfold bind at 1. unfold time_time at 1.
  unfold bind at 1.
  match goal with
  | |- context [get_model E ?W] =>
    destruct (get_model_ready W) as (m & w1 & -> & Hstore);
      [unfold engine_ready in *; exact Hready|]
  end.
  simpl in Hstore.
  unfold store_view in Hstore. injection Hstore as Hv1 Ht1 Hn1.
  unfold bind at 1. unfold modify at 1.
  unfold bind at 1. unfold lift at 1. rewrite Hres.
  unfold bind at 1. unfold time_time at 1.
  unfold bind at 1. unfold flush_transcription at 1. simpl.
  rewrite Ht1, Htr.
  unfold bind at 1. unfold commit at 1. simpl. rewrite Hn1, Hc2.
  simpl. eexists _, _. split; [done|]. simpl.
  rewrite Hv1, Ht1. split; [|split; [apply lookup_insert_eq|done]].
  now rewrite !lookup_alter_eq, Hv.
Qed.

(** C2 (as amended).  When [_transcribe_video] raises for the job in
    progress, the exception stops at the loop: the worker is alive and
    waits for the next job.  If the commit that records the failure
    succeeds, the video has status ["error"] and the text of the exception
    cut to 500 characters.  A job submitted next, whose own processing
    meets no fault, ends with status ["transcribed"] and its transcription
    stored. *)
Theorem failure_is_contained t a pa w e w1 :
  threads w !! t = Some (Working a pa) ->
  _transcribe_video E a pa w = (Raise e, w1) ->
  let w' := worker_run E t w in
  (threads w' !! t = Some Waiting /\ _current_video_id w' = None)
  /\ (commit_fault E (commits w1) = None ->
      exists v,
        videos w' !! a = Some v /\ status v = ERROR
        /\ error_message v = Some (take 500 (exc_str e))
        /\ length (take 500 (exc_str e)) <= 500)
  /\ (forall b pb vb res,
        _worker_thread w = Some t -> _task_queue w = [] ->
        videos w' !! b = Some vb -> transcriptions w' !! b = None ->
        engine_ready E w' ->
        (forall m, transcribe E m pb (WHISPER_LANGUAGE E) = Ok res) ->
        commit_fault E (commits w') = None ->
        commit_fault E (S (commits w')) = None ->
        let w'' := run E w' [Enqueue b pb; Take t; Run t] in
        threads w'' !! t = Some Waiting
        /\ videos w'' !! b = Some (with_status TRANSCRIBED vb)
        /\ exists tr, transcriptions w'' !! b = Some tr /\ stored_as E res tr).
Proof.
  intros Ht Hrun w'.
  destruct (worker_body_failure a pa w e w1 Hrun) as (w2 & Hbody & Hmark).
  pose proof (worker_body_sched a pa w) as Hframe.
  pose proof (worker_body_clears a pa w) as (Hcur & _).
  assert (Hlt : t < length (threads w)) by (apply lookup_lt_is_Some; eauto).
  assert (Hw' : w' = set_trace (trace w2 ++ [Finished a pa])
                       (set_threads (<[t := Waiting]> (threads w2)) w2)).
  { subst w'. unfold worker_run. now rewrite Ht, Hbody. }
  rewrite Hbody in Hframe, Hcur. simpl in Hframe, Hcur.
  unfold sched_view in Hframe. injection Hframe as Hq2 Hwt2 Ht2 Htr2 Hids2.
  assert (Hwait : threads w' !! t = Some Waiting).
  { rewrite Hw'. simpl. apply list_lookup_insert_eq. now rewrite Ht2. }
  split; [|split].
  - split; [done|]. now rewrite Hw'.
  - intros Hc. rewrite Hc in Hmark.
    destruct (transcribe_video_raises _ _ _ _ _ Hrun) as [v Hv].
    exists (with_error (take 500 (exc_str e)) v).
    rewrite Hw'. simpl. rewrite Hmark, lookup_alter_eq, Hv.
    repeat split. rewrite length_take. lia.
  - intros b pb vb res Hwt Hq Hvb Htb Hready Hres Hc1 Hc2 w''.
    assert (Hthreads : threads w' = <[t := Waiting]> (threads w))
      by (rewrite Hw'; simpl; now rewrite Ht2).
    set (w3 := step E (step E w' (Enqueue b pb)) (Take t)).
    assert (H3 : threads w3 = <[t := Working b pb]> (threads w')
                 /\ store_view w3 = store_view w'
                 /\ _model w3 = _model w' /\ loads w3 = loads w').
    { subst w3. unfold step, enqueue_transcription, bind, modify, get, ret,
        is_alive, worker_take. simpl.
      assert (Hwt' : _worker_thread w' = Some t) by (rewrite Hw'; simpl; congruence).
      assert (Hq' : _task_queue w' = []) by (rewrite Hw'; simpl; congruence).
      rewrite Hwt'. simpl. rewrite Hwait. simpl. rewrite Hwait, Hq'. simpl.
      now destruct (bool_decide _). }
    destruct H3 as (Ht3 & Hs3 & Hm3 & Hl3).
    assert (Hlast : w'' = step E w3 (Run t)) by reflexivity.
    clearbody w3.
    unfold store_view in Hs3. injection Hs3 as Hv3 Htr3 Hn3.
    assert (Hlt' : t < length (threads w')) by (rewrite Hthreads, length_insert; done).
    destruct (worker_body_success b pb (set_clock (clock w3 + 1)%Z w3) vb res)
      as (w4 & tr & Hbody4 & Hv4 & Htr4 & Hstored); simpl;
      rewrite ?Hv3, ?Htr3, ?Hn3; try done.
    { unfold engine_ready in *. simpl. now rewrite Hm3, Hl3. }
    pose proof (worker_body_sched b pb (set_clock (clock w3 + 1)%Z w3)) as Hframe4.
    rewrite Hbody4 in Hframe4. simpl in Hframe4.
    unfold sched_view in Hframe4. injection Hframe4 as _ _ Ht4 _ _.
    assert (Hw'' : w'' = set_trace (trace w4 ++ [Finished b pb])
                           (set_threads (<[t := Waiting]> (threads w4)) w4)).
    { rewrite Hlast. unfold step, worker_run. simpl.
      rewrite Ht3, list_lookup_insert_eq by done. now rewrite Hbody4. }
    rewrite Hw''. simpl. repeat split; try done.
    + apply list_lookup_insert_eq. rewrite Ht4, Ht3, length_insert. done.
    + by eexists.
Qed.

End PipelineFacts.


Lemma queue_position_spec_witness :
  get_video_queue_position 1 Examples.busy_queue = Some 0
  /\ get_video_queue_position 2 Examples.busy_queue = Some 1
  /\ get_video_queue_position 7 Examples.busy_queue = None.
Proof.
  pose proof (queue_position_spec Examples.env 1 Examples.busy_queue) as (H1 & _).
  pose proof (queue_position_spec Examples.env 2 Examples.busy_queue) as (_ & H2 & _).
  pose proof (queue_position_spec Examples.env 7 Examples.busy_queue) as (_ & _ & H7).
  split; [apply H1; vm_compute; reflexivity|split].
  - destruct H2 as (_ & Hhead & _); [vm_compute; discriminate|].
    apply (Hhead [1%Z]). vm_compute. reflexivity.
  - apply (H7 Examples.library ∅
             [Enqueue 1 Examples.broken; Take 0; Enqueue 2 Examples.good;
              Enqueue 1 Examples.broken]).
    + reflexivity.
    + vm_compute. intros H.
      repeat (apply elem_of_cons in H as [H|H]; [discriminate H|]).
      now apply elem_of_nil in H.
Defined.

Lemma unknown_job_skipped_witness :
  let w' := worker_run Examples.env 0 Examples.orphan in
  store_view w' = store_view Examples.orphan
  /\ logs w' = logs Examples.orphan
  /\ _current_video_id w' = None
  /\ threads w' !! 0 = Some Waiting
  /\ threads (worker_take 0 w') !! 0 = Some (Working 2 Examples.good).
Proof.
  intros w'. subst w'.
  destruct (unknown_job_skipped Examples.env 0 99 Examples.good Examples.orphan)
    as (Hstore & Hlogs & (Hcur & _) & Hwait & Hq & Hnext).
  - vm_compute. reflexivity.
  - vm_compute. reflexivity.
  - destruct (Hnext 2%Z Examples.good []) as [Htaken _].
    + vm_compute. reflexivity.
    + exact (conj Hstore (conj Hlogs (conj Hcur (conj Hwait Htaken)))).
Defined.

Lemma failure_is_contained_witness :
  let w' := worker_run Examples.env 0 (Examples.busy Examples.env) in
  let w'' := run Examples.env w' [Enqueue 2 Examples.good; Take 0; Run 0] in
  threads w' !! 0 = Some Waiting
  /\ (exists v,
        videos w' !! 1%Z = Some v /\ status v = ERROR
        /\ error_message v = Some (take 500 (exc_str Examples.engine_error))
        /\ length (take 500 (exc_str Examples.engine_error)) <= 500)
  /\ threads w'' !! 0 = Some Waiting
  /\ videos w'' !! 2%Z
     = Some (with_status TRANSCRIBED
               (mk_video (py "good.mp4") Examples.good UPLOADED None)).
Proof.
  intros w' w''. subst w' w''.
  destruct (failure_is_contained Examples.env 0 1 Examples.broken
              (Examples.busy Examples.env) Examples.engine_error
              (_transcribe_video Examples.env 1 Examples.broken
                 (Examples.busy Examples.env)).2)
    as ((Hwait & _) & Herr & Hnext).
  - vm_compute. reflexivity.
  - vm_compute. reflexivity.
  - destruct (Hnext 2%Z Examples.good
                (mk_video (py "good.mp4") Examples.good UPLOADED None)
                Examples.whisper_answer) as (Hwait' & Hdone & _).
    + vm_compute. reflexivity.
    + vm_compute. reflexivity.
    + vm_compute. reflexivity.
    + vm_compute. reflexivity.
    + right. vm_compute. reflexivity.
    + intros m. vm_compute. reflexivity.
    + vm_compute. reflexivity.
    + vm_compute. reflexivity.
    + exact (conj Hwait (conj (Herr eq_refl) (conj Hwait' Hdone))).
Defined.

(** C2 as stated fails: when the commit that records the failure fails
    too, the video keeps the status of the last commit that succeeded. *)
Lemma failure_not_recorded :
  let w := Examples.busy Examples.flaky_store in
  let w' := worker_run Examples.flaky_store 0 w in
  (_transcribe_video Examples.flaky_store 1 Examples.broken w).1
  = Raise Examples.engine_error
  /\ status <$> videos w' !! 1%Z = Some TRANSCRIBING
  /\ status <$> videos w' !! 1%Z <> Some ERROR.
Proof.
  vm_compute. repeat split. discriminate.
Qed.

End TranscriptionSpec.

(** ** The recovery scan *)

Module RecoverySpec.

Import Transcription Recovery.

Lemma filter_fst_NoDup {A} (f : Z * A -> bool) (l : list (Z * A)) :
  NoDup l.*1 -> NoDup (List.filter f l).*1.
Proof.
  induction l as [|[i x] l IH]; intros Hnd; [done|].
  apply NoDup_cons in Hnd as [Hi Hnd]. simpl.
  destruct (f (i, x)); [|now apply IH].
  simpl. apply NoDup_cons. split; [|now apply IH].
  intros Hin. apply Hi.
  apply list_elem_of_fmap in Hin as ([i' x'] & -> & Hin).
  apply list_elem_of_In, filter_In in Hin as [Hin _].
  apply list_elem_of_fmap. exists (i', x'). split; [done|].
  now apply list_elem_of_In.
Qed.

Lemma stuck_rows_NoDup w : NoDup (stuck_rows w).*1.
Proof. apply filter_fst_NoDup, NoDup_fst_map_to_list. Qed.

Lemma stuck_rows_spec w id v :
  (id, v) ∈ stuck_rows w <-> videos w !! id = Some v /\ is_stuck v = true.
Proof.
  unfold stuck_rows. rewrite list_elem_of_In, filter_In, <- list_elem_of_In.
  now rewrite elem_of_map_to_list.
Qed.

Lemma jobs_of_requeued_absent fault id rows : forall c,
  id ∉ rows.*1 -> jobs_of id (requeued fault c rows) = [].
Proof.
  induction rows as [|[i v] rows IH]; intros c Hid; [done|].
  simpl in Hid. apply not_elem_of_cons in Hid as [Hne Hid]. simpl.
  destruct (fault c); [now apply IH|].
  unfold jobs_of. simpl. rewrite bool_decide_eq_false_2 by done.
  now apply IH.
Qed.

(** A row contributes one job when its commit succeeds and none when it
    fails. *)
Lemma jobs_of_requeued fault rows : forall c k id v,
  NoDup rows.*1 -> rows !! k = Some (id, v) ->
  jobs_of id (requeued fault c rows)
  = match fault (c + k) with
    | None => [(id, filepath v)]
    | Some _ => []
    end.
Proof.
  induction rows as [|[i x] rows IH]; intros c k id v Hnd Hk; [done|].
  simpl in Hnd. apply NoDup_cons in Hnd as [Hi Hnd].
  destruct k as [|k]; simpl in Hk.
  - injection Hk as -> ->. rewrite Nat.add_0_r. simpl.
    destruct (fault c).
    + now apply jobs_of_requeued_absent.
    + unfold jobs_of. simpl. rewrite bool_decide_eq_true_2 by done.
      f_equal. now apply jobs_of_requeued_absent.
  - assert (Hne : i <> id).
    { intros ->. apply Hi. apply list_elem_of_fmap. exists (id, v).
      split; [done|]. now apply list_elem_of_lookup_2 with k. }
    replace (c + S k) with (S c + k) by lia.
    rewrite <- (IH (S c) k id v Hnd Hk). simpl.
    destruct (fault c); [done|].
    unfold jobs_of. simpl. now rewrite bool_decide_eq_false_2.
Qed.

Section ScannerFacts.

Variable E : environment.

(** One iteration of the scan. *)
Lemma requeue_one_spec id v w :
  exists w',
    requeue_one E (id, v) w = (Ok tt, w')
    /\ commits w' = S (commits w)
    /\ (forall r, r ∈ logs w -> r ∈ logs w')
    /\ match commit_fault E (commits w) with
       | None =>
         videos w' = alter (with_status UPLOADED) id (videos w)
         /\ _task_queue w' = _task_queue w ++ [(id, filepath v)]
       | Some e =>
         videos w' = videos w /\ _task_queue w' = _task_queue w
         /\ LogReenqueueFailed id e ∈ logs w'
       end.
Proof.
  unfold requeue_one, try_except, bind, commit, enqueue_transcription, bind,
    modify, get, ret, log, modify.
  destruct (commit_fault E (commits w)) as [e|]; simpl.
  - eexists. split; [done|]. simpl. split; [done|]. split; [|split; [done|split; [done|]]].
    + intros r Hr. apply elem_of_app. now left.
    + apply elem_of_app. right. apply list_elem_of_here.
  - destruct (match _worker_thread w with
              | Some t => negb (is_alive t _)
              | None => true
              end); simpl; eexists; (split; [done|]); simpl;
      (split; [done|]); (split; [|done]);
      intros r Hr; apply elem_of_app; now left.
Qed.

Lemma for_each_requeue rows : forall w,
  NoDup rows.*1 ->
  (forall id v, (id, v) ∈ rows -> videos w !! id = Some v) ->
  exists w',
    for_each rows (requeue_one E) w = (Ok tt, w')
    /\ _task_queue w' = _task_queue w ++ requeued (commit_fault E) (commits w) rows
    /\ (forall r, r ∈ logs w -> r ∈ logs w')
    /\ (forall id, id ∉ rows.*1 -> videos w' !! id = videos w !! id)
    /\ (forall k id v, rows !! k = Some (id, v) ->
          match commit_fault E (commits w + k) with
          | None => videos w' !! id = Some (with_status UPLOADED v)
          | Some e =>
            videos w' !! id = Some v /\ LogReenqueueFailed id e ∈ logs w'
          end).
Proof.
  induction rows as [|[i x] rows IH]; intros w Hnd Hrows.
  - exists w. simpl. rewrite app_nil_r. repeat split; try done.
  - simpl in Hnd. apply NoDup_cons in Hnd as [Hi Hnd].
    destruct (requeue_one_spec i x w) as (w1 & Hrun & Hc & Hlog & Hone).
    assert (Hkeep : forall id, id <> i -> videos w1 !! id = videos w !! id).
    { intros id Hne. destruct (commit_fault E (commits w)).
      - now destruct Hone as (-> & _).
      - destruct Hone as (-> & _). now apply lookup_alter_ne. }
    assert (Hrows1 : forall id v, (id, v) ∈ rows -> videos w1 !! id = Some v).
    { intros id v Hin. rewrite Hkeep.
      - apply Hrows. now apply elem_of_cons; right.
      - intros ->. apply Hi. apply list_elem_of_fmap. now exists (i, v). }
    destruct (IH w1 Hnd Hrows1) as (w' & Hrun' & Hq' & Hlog' & Hout' & Hin').
    exists w'. split; [|split; [|split; [|split]]].
    + change (for_each ((i, x) :: rows) (requeue_one E))
        with (bind (requeue_one E (i, x)) (fun _ => for_each rows (requeue_one E))).
      unfold bind. now rewrite Hrun.
    + rewrite Hq', Hc. simpl. destruct (commit_fault E (commits w)).
      * now destruct Hone as (_ & -> & _).
      * destruct Hone as (_ & ->). now rewrite <- app_assoc.
    + intros r Hr. now apply Hlog', Hlog.
    + intros id Hid. simpl in Hid. apply not_elem_of_cons in Hid as [Hne Hid].
      now rewrite Hout', Hkeep.
    + intros k id v Hk. destruct k as [|k]; simpl in Hk.
      * injection Hk as -> ->. rewrite Nat.add_0_r, (Hout' id Hi).
        assert (Hv : videos w !! id = Some v)
          by (apply Hrows, list_elem_of_here).
        destruct (commit_fault E (commits w)).
        -- destruct Hone as (-> & _ & He). split; [done|]. now apply Hlog'.
        -- destruct Hone as (-> & _). now rewrite lookup_alter_eq, Hv.
      * specialize (Hin' k id v Hk). rewrite Hc in Hin'.
        now replace (commits w + S k) with (S (commits w) + k) by lia.
Qed.

(** C6.  The scan never raises.  It visits every video whose status is
    ["uploaded"] or ["transcribing"], each once.  A video whose commit
    succeeds is stored with status ["uploaded"] and submitted exactly once
    with its stored path; a video whose commit fails is left as it was,
    is not submitted, and the failure is logged; in both cases the scan
    goes on with the remaining videos.  The other videos are untouched. *)
Theorem recovery_scan w :
  let rows := stuck_rows w in
  let new_jobs := requeued (commit_fault E) (commits w) rows in
  let w' := (_requeue_incomplete_transcriptions E w).2 in
  (_requeue_incomplete_transcriptions E w).1 = Ok tt
  /\ (NoDup rows.*1
      /\ forall id v, videos w !! id = Some v -> is_stuck v = true ->
                      exists k, rows !! k = Some (id, v))
  /\ _task_queue w' = _task_queue w ++ new_jobs
  /\ (forall k id v, rows !! k = Some (id, v) ->
        match commit_fault E (commits w + k) with
        | None =>
          videos w' !! id = Some (with_status UPLOADED v)
          /\ jobs_of id new_jobs = [(id, filepath v)]
        | Some e =>
          videos w' !! id = Some v
          /\ jobs_of id new_jobs = []
          /\ LogReenqueueFailed id e ∈ logs w'
        end)
  /\ (forall id v, videos w !! id = Some v -> is_stuck v = false ->
                   videos w' !! id = Some v).
Proof.
  intros rows new_jobs w'.
  pose proof (stuck_rows_NoDup w) as Hnd. fold rows in Hnd.
  assert (Hrows : forall id v, (id, v) ∈ rows -> videos w !! id = Some v)
    by (intros id v Hin; now apply stuck_rows_spec in Hin).
  destruct (for_each_requeue rows w Hnd Hrows)
    as (w1 & Hloop & Hq & Hlog & Hout & Hin).
  assert (Hrun : _requeue_incomplete_transcriptions E w = (Ok tt, w1)).
  { unfold _requeue_incomplete_transcriptions, try_finally, try_except, bind,
      query_stuck, ret. fold (stuck_rows w). fold rows. now rewrite Hloop. }
  subst w'. rewrite Hrun. simpl.
  split; [done|]. split; [|split; [done|split]].
  - split; [done|]. intros id v Hv Hs.
    apply list_elem_of_lookup. now apply stuck_rows_spec.
  - intros k id v Hk. specialize (Hin k id v Hk).
    pose proof (jobs_of_requeued (commit_fault E) rows (commits w) k id v Hnd Hk)
      as Hjobs. fold new_jobs in Hjobs.
    destruct (commit_fault E (commits w + k)); [|done].
    destruct Hin as [Hv Hl]. done.
  - intros id v Hv Hs. rewrite Hout; [done|].
    intros Hin'. apply list_elem_of_fmap in Hin' as ([i x] & -> & Hin').
    apply stuck_rows_spec in Hin' as [Hx Hsx]. simpl in *. congruence.
Qed.

End ScannerFacts.

Lemma recovery_scan_witness :
  let w := boot Examples.crashed ∅ in
  let ok := (_requeue_incomplete_transcriptions Examples.env w).2 in
  let ko := (_requeue_incomplete_transcriptions Examples.flaky_scan w).2 in
  (_task_queue ok = [(2%Z, py "uploads/b.mp4"); (1%Z, py "uploads/a.mp4")]
   /\ videos ok !! 2%Z
      = Some (mk_video (py "b.mp4") (py "uploads/b.mp4") UPLOADED None))
  /\ (_task_queue ko = [(1%Z, py "uploads/a.mp4")]
      /\ videos ko !! 2%Z
         = Some (mk_video (py "b.mp4") (py "uploads/b.mp4") TRANSCRIBING None)
      /\ LogReenqueueFailed 2 Examples.locked ∈ logs ko).
Proof.
  intros w ok ko. subst ok ko.
  assert (Hrow0 : stuck_rows w !! 0
                  = Some (2%Z, mk_video (py "b.mp4") (py "uploads/b.mp4")
                                 TRANSCRIBING None))
    by (vm_compute; reflexivity).
  split.
  - destruct (recovery_scan Examples.env w) as (_ & _ & Hq & Hrow & _).
    specialize (Hrow 0 _ _ Hrow0).
    change (commit_fault Examples.env (commits w + 0)) with (@None pyexc) in Hrow.
    destruct Hrow as [Hv _]. split; [|exact Hv].
    etransitivity; [exact Hq|]. vm_compute. reflexivity.
  - destruct (recovery_scan Examples.flaky_scan w) as (_ & _ & Hq & Hrow & _).
    specialize (Hrow 0 _ _ Hrow0).
    change (commit_fault Examples.flaky_scan (commits w + 0))
      with (Some Examples.locked) in Hrow.
    destruct Hrow as (Hv & _ & Hlog). split; [|exact (conj Hv Hlog)].
    etransitivity; [exact Hq|]. vm_compute. reflexivity.
Defined.

End RecoverySpec.

(** ** Construction of the engine *)

Module ModelInitSpec.

Import ModelInit.

Lemma sched_at ps g t p :
  ps !! t = Some p ->
  sched (ps, g) t = (<[t := (advance p g).1]> ps, (advance p g).2).
Proof. intros H. unfold sched. simpl. rewrite H. now destruct (advance p g). Qed.

Lemma sched_again ps g t p :
  t < length ps ->
  sched (<[t := p]> ps, g) t = (<[t := (advance p g).1]> ps, (advance p g).2).
Proof.
  intros Hlt. rewrite (sched_at _ _ _ p) by now apply list_lookup_insert_eq.
  now rewrite list_insert_insert_eq.
Qed.

(** A caller that runs alone from the entry of [get_model] returns the
    stored instance, which it has built if there was none. *)
Lemma runs_alone ps g t :
  ps !! t = Some Test ->
  interleave (ps, g) (replicate 6 t)
  = match _model g with
    | Some m => (<[t := Returned (Some m)]> ps, g)
    | None =>
      (<[t := Returned (Some (constructions g))]> ps,
       mk_shared (Some (constructions g)) false (S (constructions g)))
    end.
Proof.
  intros Ht.
  assert (Hlt : t < length ps) by (apply lookup_lt_is_Some; eauto).
  unfold interleave. simpl. rewrite (sched_at _ _ _ Test) by done.
  destruct g as [[m|] ld n]; simpl;
    repeat (rewrite sched_again by done; simpl); done.
Qed.

Lemma one_by_one_cons t order :
  one_by_one (t :: order) = replicate 6 t ++ one_by_one order.
Proof. reflexivity. Qed.

Lemma interleave_app c a b :
  interleave c (a ++ b) = interleave (interleave c a) b.
Proof. apply foldl_app. Qed.

(** A caller that runs alone does what [get_model] does as a whole, when
    the construction succeeds. *)
Lemma runs_alone_is_get_model E w :
  Transcription.load_model E (Transcription.WHISPER_MODEL E)
    (Transcription.loads w) = Ok tt ->
  let g := mk_shared (Transcription._model w) (Transcription._model_loading w)
             (Transcription.loads w) in
  let c := interleave ([Test], g) (replicate 6 0) in
  let r := Transcription.get_model E w in
  (exists m, r.1 = Ok m /\ c.1 = [Returned (Some m)])
  /\ c.2 = mk_shared (Transcription._model r.2) (Transcription._model_loading r.2)
            (Transcription.loads r.2).
Proof.
  intros Hload g c r. subst c r g. rewrite runs_alone by done.
  unfold Transcription.get_model, bind, get, lift, modify, ret, Transcription.log,
    modify.
  simpl. destruct (Transcription._model w) as [m|] eqn:Hm; simpl.
  - rewrite Hm. split; [by exists m|done].
  - rewrite Hload. simpl. split; [by eexists|done].
Qed.

(** Once an instance is stored, callers that run one after the other
    all return it and build nothing. *)
Lemma cached_runs order : forall ps g m,
  _model g = Some m -> NoDup order ->
  (forall t, t ∈ order -> ps !! t = Some Test) ->
  exists ps',
    interleave (ps, g) (one_by_one order) = (ps', g)
    /\ (forall t, t ∈ order -> ps' !! t = Some (Returned (Some m)))
    /\ (forall t, t ∉ order -> ps' !! t = ps !! t).
Proof.
  induction order as [|t order IH]; intros ps g m Hm Hnd Hps.
  - exists ps. split; [done|]. split; [|done].
    intros t Ht. now apply elem_of_nil in Ht.
  - apply NoDup_cons in Hnd as [Ht Hnd].
    assert (Hlt : t < length ps)
      by (apply lookup_lt_is_Some; rewrite Hps; [eauto|apply list_elem_of_here]).
    rewrite one_by_one_cons, interleave_app.
    rewrite runs_alone, Hm by (apply Hps, list_elem_of_here).
    destruct (IH (<[t := Returned (Some m)]> ps) g m Hm Hnd)
      as (ps' & Hrun & Hin & Hout).
    { intros u Hu. rewrite list_lookup_insert_ne by (intros ->; done).
      apply Hps. now apply elem_of_cons; right. }
    exists ps'. split; [exact Hrun|]. split.
    + intros u Hu. apply elem_of_cons in Hu as [->|Hu]; [|now apply Hin].
      rewrite Hout by done. now apply list_lookup_insert_eq.
    + intros u Hu. apply not_elem_of_cons in Hu as [Hne Hu].
      rewrite Hout by done. now apply list_lookup_insert_ne.
Qed.

(** C9 (as amended).  [get_model] builds the engine on first use and
    keeps it in a global without any lock: when the first-use calls of
    [n] callers do not overlap, the engine is built once and every caller
    returns that instance. *)
Theorem get_model_one_at_a_time n order :
  NoDup order -> (forall t, t ∈ order -> t < n) -> order <> [] ->
  let c := interleave (first_use n) (one_by_one order) in
  constructions c.2 = 1 /\ _model c.2 = Some 0
  /\ forall t, t ∈ order -> c.1 !! t = Some (Returned (Some 0)).
Proof.
  intros Hnd Hn Hne. destruct order as [|t order]; [done|].
  apply NoDup_cons in Hnd as [Ht Hnd].
  assert (Hstart : forall u, u < n -> (first_use n).1 !! u = Some Test)
    by (intros u Hu; now apply lookup_replicate_2).
  rewrite one_by_one_cons, interleave_app.
  unfold first_use at 1.
  rewrite runs_alone by (apply Hstart, Hn, list_elem_of_here). simpl _model.
  destruct (cached_runs order (<[t := Returned (Some 0)]> (replicate n Test))
              (mk_shared (Some 0) false 1) 0 eq_refl Hnd)
    as (ps' & Hrun & Hin & Hout).
  { intros u Hu. rewrite list_lookup_insert_ne by (intros ->; done).
    apply (Hstart u), Hn. now apply elem_of_cons; right. }
  simpl constructions. rewrite Hrun.
  split; [done|]. split; [done|].
  intros u Hu. apply elem_of_cons in Hu as [->|Hu]; [|now apply Hin].
  simpl. rewrite Hout by done. apply list_lookup_insert_eq.
  rewrite length_replicate. apply Hn, list_elem_of_here.
Qed.

Lemma get_model_one_at_a_time_witness :
  let c := interleave (first_use 3) (one_by_one [2; 0; 1]) in
  constructions c.2 = 1 /\ _model c.2 = Some 0
  /\ c.1 !! 1 = Some (Returned (Some 0)).
Proof.
  destruct (get_model_one_at_a_time 3 [2; 0; 1]) as (Hn & Hm & Hall).
  - repeat (apply NoDup_cons; split;
            [intros H; repeat (apply elem_of_cons in H as [H|H]; [discriminate H|]);
             now apply elem_of_nil in H|]).
    apply NoDup_nil_2.
  - intros t H.
    repeat (apply elem_of_cons in H as [->|H]; [lia|]). now apply elem_of_nil in H.
  - discriminate.
  - split; [exact Hn|]. split; [exact Hm|]. apply Hall.
    apply elem_of_cons; right. apply elem_of_cons; right. apply list_elem_of_here.
Defined.

(** C9 as stated fails: two callers that both test [_model] before
    either has stored an instance build one engine each and return
    different instances. *)
Lemma get_model_race :
  let c := interleave (first_use 2) [0; 1; 0; 0; 0; 0; 0; 1; 1; 1; 1; 1] in
  constructions c.2 = 2
  /\ c.1 = [Returned (Some 0); Returned (Some 1)].
Proof. vm_compute. split; reflexivity. Qed.

End ModelInitSpec.

(** ** More on the dispatcher *)

Module GeminiMore.

Import Gemini.

Lemma lstrip_spaces pre s : Forall (fun c => isspace c = true) pre ->
  lstrip (pre ++ s) = lstrip s.
Proof.
  induction 1 as [|c pre Hc _ IH]; [done|]. simpl. now rewrite Hc.
Qed.

Lemma lstrip_all_spaces s : Forall (fun c => isspace c = true) s -> lstrip s = [].
Proof. induction 1 as [|c s Hc _ IH]; [done|]. simpl. now rewrite Hc. Qed.

Lemma lstrip_app s t :
  lstrip (s ++ t) = if bool_decide (lstrip s = []) then lstrip t else lstrip s ++ t.
Proof.
  induction s as [|c s IH]; [done|]. simpl.
  destruct (isspace c); [exact IH|]. now rewrite bool_decide_eq_false_2.
Qed.

Lemma rstrip_spaces s post : Forall (fun c => isspace c = true) post ->
  rstrip (s ++ post) = rstrip s.
Proof.
  intros Hpost. unfold rstrip. rewrite rev_app_distr. f_equal.
  apply lstrip_spaces. now apply Forall_rev.
Qed.

(** [strip] does not see white space added on either side. *)
Lemma strip_padding pre s post :
  Forall (fun c => isspace c = true) pre ->
  Forall (fun c => isspace c = true) post ->
  strip (pre ++ s ++ post) = strip s.
Proof.
  intros Hpre Hpost. unfold strip. rewrite lstrip_spaces by done.
  rewrite lstrip_app. case_bool_decide as Hs.
  - rewrite Hs, lstrip_all_spaces by done. done.
  - now apply rstrip_spaces.
Qed.

Lemma rotation_S keys c m :
  rotation keys c (S m) = credential_at keys c :: rotation keys (S c) m.
Proof.
  unfold rotation. simpl. rewrite Nat.add_0_r. f_equal.
  rewrite <- seq_shift, map_map. apply map_ext. intros j. f_equal. lia.
Qed.

Lemma rotation_snoc keys c m :
  rotation keys c (S m) = rotation keys c m ++ [credential_at keys (c + m)].
Proof. unfold rotation. now rewrite seq_S, map_app. Qed.

(** Selections made over one full turn are the pool, cut at the cursor
    and put back together the other way round. *)
Lemma rotation_full_turn keys c :
  keys <> [] ->
  rotation keys c (length keys)
  = drop (c mod length keys) keys ++ take (c mod length keys) keys.
Proof.
  intros Hne. set (n := length keys).
  assert (Hn : n <> 0) by (subst n; destruct keys; done).
  assert (Hr : c mod n < n) by now apply Nat.mod_upper_bound.
  apply list_eq. intros j. unfold rotation.
  rewrite list_lookup_fmap.
  destruct (decide (j < n)) as [Hj|Hj].
  - rewrite lookup_seq_lt by done. simpl. unfold credential_at. fold n.
    assert (Hmod : (c + j) mod n = (c mod n + j) mod n)
      by (rewrite Nat.Div0.add_mod_idemp_l; done).
    rewrite Hmod.
    destruct (decide (c mod n + j < n)) as [Hlt|Hge].
    + rewrite Nat.mod_small by done.
      rewrite lookup_app_l by (rewrite length_drop; fold n; lia).
      rewrite lookup_drop.
      destruct (lookup_lt_is_Some_2 keys (c mod n + j)) as [x Hx]; [fold n; lia|].
      rewrite Hx. f_equal. now apply nth_lookup_Some with (d := []).
    + assert (Hsub : (c mod n + j) mod n = c mod n + j - n).
      { rewrite (Nat.Div0.mod_eq _ n).
        assert ((c mod n + j) / n = 1) as ->; [|lia].
        symmetry. apply (Nat.div_unique _ _ _ (c mod n + j - n)); lia. }
      rewrite Hsub.
      rewrite lookup_app_r by (rewrite length_drop; fold n; lia).
      rewrite length_drop. fold n.
      replace (j - (n - c mod n)) with (c mod n + j - n) by lia.
      rewrite lookup_take_lt by lia.
      destruct (lookup_lt_is_Some_2 keys (c mod n + j - n)) as [x Hx]; [fold n; lia|].
      rewrite Hx. f_equal. now apply nth_lookup_Some with (d := []).
  - rewrite lookup_seq_ge by lia. simpl. symmetry. apply lookup_ge_None.
    rewrite length_app, length_drop, length_take. fold n. lia.
Qed.

(** Consecutive calls of [_next_key] walk along the rotation. *)
Lemma next_keys_rotation n : forall keys st,
  keys <> [] ->
  next_keys n keys st
  = (Ok (rotation keys (_key_index st) n),
     mk_gemini (_key_index st + n) (api_calls st)).
Proof.
  induction n as [|n IH]; intros keys st Hne.
  - simpl. unfold ret, rotation. simpl. rewrite Nat.add_0_r. now destruct st.
  - simpl. unfold bind at 1. rewrite GeminiSpec.next_key_selects by done.
    unfold bind at 1. rewrite IH by done. unfold ret. simpl.
    rewrite rotation_S. do 2 f_equal. lia.
Qed.

(** X1.  [len(keys)] consecutive calls of [_next_key], from whatever
    cursor, return every entry of the pool exactly once and move the
    cursor by [len(keys)]. *)
Theorem rotation_is_fair keys st :
  keys <> [] ->
  exists picks,
    next_keys (length keys) keys st
    = (Ok picks, mk_gemini (_key_index st + length keys) (api_calls st))
    /\ picks ≡ₚ keys.
Proof.
  intros Hne. exists (rotation keys (_key_index st) (length keys)).
  split; [now apply next_keys_rotation|].
  rewrite rotation_full_turn by done.
  rewrite Permutation_app_comm. now rewrite take_drop.
Qed.

Lemma rotation_is_fair_witness :
  exists picks,
    next_keys 3 Examples.pool3 (mk_gemini 7 [])
    = (Ok picks, mk_gemini 10 [])
    /\ picks ≡ₚ Examples.pool3.
Proof.
  apply (rotation_is_fair Examples.pool3 (mk_gemini 7 [])). discriminate.
Defined.

Section DispatchMore.

Variable str_lower : str -> str.
Variable json_loads : str -> pyresult pyvalue.
Variable generate_content : str -> str -> str -> nat -> pyresult str.

Local Abbreviation parse := (_parse_response json_loads).
Local Abbreviation limited := (is_rate_limit_error str_lower).
Local Abbreviation loop := (attempts str_lower json_loads generate_content).
Local Abbreviation dispatch :=
  (analyze_cm_effectiveness str_lower json_loads generate_content).

(** X2.  White space before and after the answer of the service, fenced
    or not, does not change what [_parse_response] returns. *)
Theorem parse_response_ignores_padding pre text post :
  Forall (fun c => isspace c = true) pre ->
  Forall (fun c => isspace c = true) post ->
  parse (pre ++ text ++ post) = parse text.
Proof.
  intros Hpre Hpost. unfold _parse_response, cleaned_text.
  now rewrite strip_padding.
Qed.

(** One iteration, whatever the service answers. *)
Lemma attempts_step n keys model prompt last st :
  keys <> [] ->
  let key := credential_at keys (_key_index st) in
  let st1 := mk_gemini (S (_key_index st)) (api_calls st ++ [key]) in
  loop (S n) keys model prompt last st
  = match generate_content key model prompt (length (api_calls st)) with
    | Ok text =>
      match parse text with
      | Ok v => (Ok v, st1)
      | Raise e =>
        if limited e then loop n keys model prompt (Some e) st1 else (Raise e, st1)
      end
    | Raise e =>
      if limited e then loop n keys model prompt (Some e) st1 else (Raise e, st1)
    end.
Proof.
  intros Hne key st1. simpl. unfold bind at 1.
  rewrite GeminiSpec.next_key_selects by done.
  unfold try_except, bind, call_service, lift, raise. simpl. fold key st1.
  destruct (generate_content key model prompt (length (api_calls st))) as [text|e];
    [destruct (_parse_response json_loads text) as [v|e]|]; try done;
    now destruct (is_rate_limit_error str_lower e).
Qed.

Lemma attempts_bounded n : forall keys model prompt last st,
  keys <> [] ->
  exists k,
    k <= n
    /\ (loop n keys model prompt last st).2
       = mk_gemini (_key_index st + k)
           (api_calls st ++ rotation keys (_key_index st) k).
Proof.
  induction n as [|n IH]; intros keys model prompt last st Hne.
  - exists 0. split; [done|]. simpl. unfold rotation. simpl.
    rewrite Nat.add_0_r, app_nil_r. now destruct st.
  - rewrite attempts_step by done.
    set (key := credential_at keys (_key_index st)).
    set (st1 := mk_gemini (S (_key_index st)) (api_calls st ++ [key])).
    assert (Hone : st1 = mk_gemini (_key_index st + 1)
                           (api_calls st ++ rotation keys (_key_index st) 1)).
    { subst st1. unfold rotation. simpl. rewrite Nat.add_0_r. f_equal. lia. }
    assert (Hrec : forall e,
               exists k, k <= S n
               /\ (loop n keys model prompt (Some e) st1).2
                  = mk_gemini (_key_index st + k)
                      (api_calls st ++ rotation keys (_key_index st) k)).
    { intros e. destruct (IH keys model prompt (Some e) st1 Hne) as (k & Hk & Hst).
      exists (S k). split; [lia|]. rewrite Hst. subst st1. simpl.
      rewrite rotation_S, <- app_assoc. simpl. f_equal. lia. }
    destruct (generate_content key model prompt (length (api_calls st))) as [text|e];
      [destruct (_parse_response json_loads text) as [v|e]|];
      try (exists 1; split; [lia|exact Hone]);
      (destruct (is_rate_limit_error str_lower e);
       [apply Hrec|exists 1; split; [lia|exact Hone]]).
Qed.

(** X3.  Whatever the service answers, one call of the dispatcher makes
    at most [len(keys)] attempts, each with the next credential of the
    rotation, and moves the cursor by the number of attempts it made. *)
Theorem dispatch_attempts_bounded keys model prompt st :
  exists k,
    k <= length keys
    /\ (dispatch keys model prompt st).2
       = mk_gemini (_key_index st + k)
           (api_calls st ++ rotation keys (_key_index st) k).
Proof.
  destruct keys as [|key keys].
  - exists 0. split; [done|]. simpl. unfold rotation. simpl.
    rewrite Nat.add_0_r, app_nil_r. now destruct st.
  - apply (attempts_bounded (length (key :: keys))). done.
Qed.

(** After [k] refused attempts the loop goes on from the cursor moved by
    [k], with the last refusal kept. *)
Lemma attempts_skip k : forall m keys model prompt last st errs,
  keys <> [] ->
  (forall j, j < k ->
     generate_content (credential_at keys (_key_index st + j)) model prompt
       (length (api_calls st) + j) = Raise (errs j)
     /\ limited (errs j) = true) ->
  loop (k + m) keys model prompt last st
  = loop m keys model prompt (last_of k errs last)
      (mk_gemini (_key_index st + k)
         (api_calls st ++ rotation keys (_key_index st) k)).
Proof.
  induction k as [|k IH]; intros m keys model prompt last st errs Hne Hall.
  - simpl. unfold rotation. simpl. rewrite Nat.add_0_r, app_nil_r. now destruct st.
  - replace (S k + m) with (k + S m) by lia.
    rewrite (IH (S m) keys model prompt last st errs Hne)
      by (intros j Hj; apply Hall; lia).
    destruct (Hall k ltac:(lia)) as [Hcall Hlim].
    rewrite (GeminiSpec.attempts_limited str_lower json_loads generate_content
               m keys model prompt _ _ (errs k)); try done.
    + simpl. rewrite <- app_assoc, <- rotation_snoc. do 2 f_equal. lia.
    + simpl. rewrite length_app. unfold rotation.
      now rewrite length_map, length_seq.
Qed.

(** The call that meets an error of another kind. *)
Lemma dispatch_fatal keys model prompt st errs k e :
  k < length keys ->
  (forall j, j < k ->
     generate_content (credential_at keys (_key_index st + j)) model prompt
       (length (api_calls st) + j) = Raise (errs j)
     /\ limited (errs j) = true) ->
  generate_content (credential_at keys (_key_index st + k)) model prompt
    (length (api_calls st) + k) = Raise e ->
  limited e = false ->
  dispatch keys model prompt st
  = (Raise e,
     mk_gemini (_key_index st + S k)
       (api_calls st ++ rotation keys (_key_index st) (S k))).
Proof.
  intros Hk Hall Hcall Hfatal.
  assert (Hne : keys <> []) by (destruct keys; simpl in Hk; [lia|done]).
  assert (Hd : dispatch keys model prompt st
               = loop (k + S (length keys - S k)) keys model prompt None st).
  { replace (k + S (length keys - S k)) with (length keys) by lia.
    now destruct keys. }
  rewrite Hd, (attempts_skip k _ keys model prompt None st errs Hne Hall).
  rewrite attempts_step by done. simpl.
  rewrite length_app. unfold rotation at 1 2. rewrite length_map, length_seq.
  fold (rotation keys (_key_index st) k).
  rewrite Hcall, Hfatal, <- app_assoc, <- rotation_snoc.
  do 2 f_equal. lia.
Qed.

(** X4.  An error that is not classified as a rate limit ends the call
    at once: after [k] refused attempts the dispatcher raises that very
    error, and the credentials left in the pool are not tried. *)
Theorem dispatch_fatal_error keys model prompt st errs k e :
  k < length keys ->
  (forall j, j < k ->
     generate_content (credential_at keys (_key_index st + j)) model prompt
       (length (api_calls st) + j) = Raise (errs j)
     /\ limited (errs j) = true) ->
  generate_content (credential_at keys (_key_index st + k)) model prompt
    (length (api_calls st) + k) = Raise e ->
  limited e = false ->
  dispatch keys model prompt st
  = (Raise e,
     mk_gemini (_key_index st + S k)
       (api_calls st ++ rotation keys (_key_index st) (S k))).
Proof. apply dispatch_fatal. Qed.

(** The call that finds every credential limited. *)
Lemma dispatch_all_limited keys model prompt st errs :
  keys <> [] ->
  (forall j, j < length keys ->
     generate_content (credential_at keys (_key_index st + j)) model prompt
       (length (api_calls st) + j) = Raise (errs j)
     /\ limited (errs j) = true) ->
  dispatch keys model prompt st
  = (Raise (RuntimeError (EXHAUSTED_PREFIX ++ exc_str (errs (length keys - 1)))),
     mk_gemini (_key_index st + length keys)
       (api_calls st ++ rotation keys (_key_index st) (length keys))).
Proof.
  intros Hne Hall.
  destruct keys as [|k ks] eqn:Hk; [done|]. rewrite <- Hk in *.
  assert (Hd : dispatch keys model prompt st
               = loop (length keys) keys model prompt None st)
    by now rewrite Hk.
  rewrite Hd.
  rewrite (GeminiSpec.attempts_exhausted str_lower json_loads generate_content
             (length keys) keys model prompt None st errs) by done.
  do 3 f_equal. rewrite Hk. simpl. now rewrite Nat.sub_0_r.
Qed.

End DispatchMore.

Lemma dispatch_fatal_error_witness :
  analyze_cm_effectiveness ascii_lower JsonRef.loads MoreExamples.denied_after_quota
    Examples.pool3 (py "gemini-2.5-flash") (py "prompt") (mk_gemini 3 [])
  = (Raise MoreExamples.denied, mk_gemini 5 [py "key-a"; py "key-b"]).
Proof.
  apply (dispatch_fatal_error ascii_lower JsonRef.loads
           MoreExamples.denied_after_quota Examples.pool3
           (py "gemini-2.5-flash") (py "prompt") (mk_gemini 3 [])
           (fun _ => Examples.quota_error) 1 MoreExamples.denied).
  - simpl. lia.
  - intros j Hj. assert (j = 0) as -> by lia. split; reflexivity.
  - reflexivity.
  - reflexivity.
Defined.

Lemma parse_response_ignores_padding_witness :
  _parse_response JsonRef.loads
    (py "  " ++ fenced (py "json") Examples.answer ++ [NL])
  = _parse_response JsonRef.loads (fenced (py "json") Examples.answer).
Proof.
  apply (parse_response_ignores_padding JsonRef.loads).
  - repeat constructor.
  - repeat constructor.
Defined.

End GeminiMore.

(** ** More on the pipeline *)

Module TranscriptionMoreSpec.

Import Transcription TranscriptionMore.

Section PipelineMore.

Variable E : environment.


(** X6.  When the construction of the engine fails, [get_model] raises
    the failure, stores no engine and leaves [_model_loading] set; the
    failure is not remembered, and the next call builds the engine if the
    construction then succeeds. *)
Theorem get_model_failure_is_retried w e :
  _model w = None ->
  load_model E (WHISPER_MODEL E) (loads w) = Raise e ->
  let r := get_model E w in
  r.1 = Raise e /\ _model r.2 = None /\ _model_loading r.2 = true
  /\ (load_model E (WHISPER_MODEL E) (loads r.2) = Ok tt ->
      exists m,
        (get_model E r.2).1 = Ok m
        /\ _model (get_model E r.2).2 = Some m
        /\ _model_loading (get_model E r.2).2 = false).
Proof.
  intros Hm Hload r. subst r.
  unfold get_model at 1 2 3 4. unfold bind, get, lift, modify, log, modify, ret.
  simpl. rewrite Hm, Hload. simpl. rewrite Hm.
  split; [done|]. split; [done|]. split; [done|].
  intros Hnext. unfold get_model, bind, get, lift, modify, log, modify, ret.
  simpl. rewrite Hm, Hload. simpl. rewrite Hm, Hnext. simpl. by eexists.
Qed.

(** Once [_transcribe_video] has raised, the rest of the iteration
    writes to the table of videos only. *)
Lemma worker_body_failure_store video_id path w e w1 :
  _transcribe_video E video_id path w = (Raise e, w1) ->
  exists w2,
    worker_body E video_id path w = (Ok tt, w2)
    /\ transcriptions w2 = transcriptions w1
    /\ (commit_fault E (commits w1) = None ->
        videos w2 = alter (with_error (take 500 (exc_str e))) video_id (videos w1)).
Proof.
  intros Hrun.
  destruct (TranscriptionSpec.transcribe_video_raises E _ _ _ _ _ Hrun) as [v Hv].
  unfold worker_body, try_finally, try_except. rewrite Hrun.
  unfold bind at 1. unfold log at 1, modify at 1.
  unfold _mark_error, try_finally, try_except, bind, query_video, commit.
  simpl. rewrite Hv, TranscriptionSpec.truncated_message.
  destruct (commit_fault E (commits w1)) as [e'|] eqn:Hc; simpl; rewrite ?Hc.
  - eexists. split; [done|]. split; [done|]. done.
  - eexists. split; [done|]. split; done.
Qed.

(** A job whose video already has a transcription gets as far as the
    insertion, which the store refuses. *)
Lemma transcribe_video_duplicate video_id path w v tr res :
  videos w !! video_id = Some v ->
  transcriptions w !! video_id = Some tr ->
  engine_ready E w ->
  (forall m, transcribe E m path (WHISPER_LANGUAGE E) = Ok res) ->
  commit_fault E (commits w) = None ->
  exists e w1,
    _transcribe_video E video_id path w = (Raise e, w1)
    /\ transcriptions w1 = transcriptions w
    /\ commits w1 = S (commits w)
    /\ videos w1 = alter (with_status TRANSCRIBING) video_id (videos w).
Proof.
  intros Hv Htr Hready Hres Hc1.
  unfold _transcribe_video, try_finally, try_except.
  unfold bind at 1. unfold query_video at 1. rewrite Hv.
  unfold bind at 1. unfold commit at 1. rewrite Hc1.
  unfold bind at 1. unfold modify at 1.
  unfold bind at 1. unfold time_time at 1.
  unfold bind at 1.
  match goal with
  | |- context [get_model E ?W] =>
    destruct (TranscriptionSpec.get_model_ready E W) as (m & w1 & -> & Hstore);
      [unfold engine_ready in *; exact Hready|]
  end.
  simpl in Hstore.
  unfold store_view in Hstore. injection Hstore as Hv1 Ht1 Hn1.
  unfold bind at 1. unfold modify at 1.
  unfold bind at 1. unfold lift at 1. rewrite Hres.
  unfold bind at 1. unfold time_time at 1.
  unfold bind at 1. unfold flush_transcription at 1. simpl.
  rewrite Ht1, Htr. simpl. eexists _, _. split; [done|]. simpl. done.
Qed.

(** The iteration that handles such a job. *)
Lemma duplicate_job_refused t video_id path w v tr res :
  threads w !! t = Some (Working video_id path) ->
  videos w !! video_id = Some v ->
  transcriptions w !! video_id = Some tr ->
  engine_ready E w ->
  (forall m, transcribe E m path (WHISPER_LANGUAGE E) = Ok res) ->
  commit_fault E (commits w) = None ->
  commit_fault E (S (commits w)) = None ->
  let w' := worker_run E t w in
  transcriptions w' = transcriptions w
  /\ threads w' !! t = Some Waiting
  /\ exists v' msg,
       videos w' !! video_id = Some v' /\ status v' = ERROR
       /\ error_message v' = Some msg /\ length msg <= 500.
Proof.
  intros Ht Hv Htr Hready Hres Hc1 Hc2 w'.
  destruct (transcribe_video_duplicate video_id path w v tr res)
    as (e & w1 & Hrun & Ht1 & Hn1 & Hv1); try done.
  destruct (worker_body_failure_store video_id path w e w1 Hrun)
    as (w2 & Hbody & Ht2 & Hv2).
  rewrite Hn1 in Hv2. specialize (Hv2 Hc2).
  pose proof (TranscriptionSpec.worker_body_sched E video_id path w) as Hframe.
  rewrite Hbody in Hframe. simpl in Hframe.
  unfold sched_view in Hframe. injection Hframe as _ _ Hth _ _.
  assert (Hlt : t < length (threads w)) by (apply lookup_lt_is_Some; eauto).
  subst w'. unfold worker_run. rewrite Ht, Hbody. simpl.
  split; [congruence|]. split.
  - apply list_lookup_insert_eq. now rewrite Hth.
  - exists (with_error (take 500 (exc_str e)) (with_status TRANSCRIBING v)),
      (take 500 (exc_str e)).
    rewrite Hv2, Hv1, !lookup_alter_eq, Hv. simpl.
    do 3 (split; [done|]). rewrite length_take. lia.
Qed.

(** X7.  A job for a video that already has a transcription runs the
    engine and is then refused by the store: the stored transcription is
    left as it was and the video ends with status ["error"] and a message
    of at most 500 characters. *)
Theorem second_transcription_is_refused t video_id path w v tr res :
  threads w !! t = Some (Working video_id path) ->
  videos w !! video_id = Some v ->
  transcriptions w !! video_id = Some tr ->
  engine_ready E w ->
  (forall m, transcribe E m path (WHISPER_LANGUAGE E) = Ok res) ->
  commit_fault E (commits w) = None ->
  commit_fault E (S (commits w)) = None ->
  let w' := worker_run E t w in
  transcriptions w' = transcriptions w
  /\ threads w' !! t = Some Waiting
  /\ exists v' msg,
       videos w' !! video_id = Some v' /\ status v' = ERROR
       /\ error_message v' = Some msg /\ length msg <= 500.
Proof. apply duplicate_job_refused. Qed.

(** *** Properties of the store that every step keeps *)

Section Maintains.

Context {A B : Type} (I : world -> Prop).

Lemma maintains_ret (a : A) : maintains I (ret a).
Proof. intros w Hw. exact Hw. Qed.

Lemma maintains_raise e : maintains I (@raise world A e).
Proof. intros w Hw. exact Hw. Qed.

Lemma maintains_lift (r : pyresult A) : maintains I (lift r).
Proof. intros w Hw. exact Hw. Qed.

Lemma maintains_bind (c : M world A) (k : A -> M world B) :
  maintains I c -> (forall a, maintains I (k a)) -> maintains I (bind c k).
Proof.
  intros Hc Hk w Hw. unfold bind. specialize (Hc w Hw).
  destruct (c w) as [[a|e] w1]; simpl in *; [|done]. now apply Hk.
Qed.

Lemma maintains_try_except (c : M world A) h :
  maintains I c -> (forall e, maintains I (h e)) -> maintains I (try_except c h).
Proof.
  intros Hc Hh w Hw. unfold try_except. specialize (Hc w Hw).
  destruct (c w) as [[a|e] w1]; simpl in *; [done|]. now apply Hh.
Qed.

Lemma maintains_try_finally (c : M world A) f :
  maintains I c -> maintains I f -> maintains I (try_finally c f).
Proof.
  intros Hc Hf w Hw. unfold try_finally. specialize (Hc w Hw).
  destruct (c w) as [r w1]. simpl in Hc. specialize (Hf w1 Hc).
  now destruct (f w1) as [[[]|e] w2].
Qed.

End Maintains.

Section StoreInvariant.

(** A property of the two tables that survives the three writes of the
    pipeline: the status set to ["transcribing"], the error recorded, and
    the transcription inserted, for a video that has none, together with
    the status ["transcribed"]. *)
Variable P : gmap Z Video -> gmap Z Transcription -> Prop.

Hypothesis P_transcribing : forall vs ts id,
  P vs ts -> P (alter (with_status TRANSCRIBING) id vs) ts.
Hypothesis P_error : forall vs ts id msg,
  P vs ts -> P (alter (with_error msg) id vs) ts.
Hypothesis P_transcribed : forall vs ts id tr,
  P vs ts -> ts !! id = None ->
  P (alter (with_status TRANSCRIBED) id vs) (<[id := tr]> ts).

Let I (w : world) : Prop := P (videos w) (transcriptions w).

Lemma get_model_maintains : maintains I (get_model E).
Proof using Type.
  intros w Hw. unfold get_model, bind, get, lift, modify, log, modify, ret.
  simpl. destruct (_model w); [exact Hw|].
  now destruct (load_model E (WHISPER_MODEL E) (loads w)) as [[]|e].
Qed.

Lemma transcribe_video_maintains video_id path :
  maintains I (_transcribe_video E video_id path).
Proof using P_transcribing P_transcribed.
  unfold _transcribe_video.
  apply maintains_try_finally; [|apply maintains_ret].
  apply maintains_try_except; [|intros e; apply maintains_raise].
  apply maintains_bind; [intros w Hw; exact Hw|]. intros [v|]; [|apply maintains_ret].
  apply maintains_bind.
  { intros w Hw. unfold commit. destruct (commit_fault E (commits w)); [exact Hw|].
    simpl. now apply P_transcribing. }
  intros _. apply maintains_bind; [intros w Hw; exact Hw|]. intros _.
  apply maintains_bind; [intros w Hw; exact Hw|]. intros start.
  apply maintains_bind; [apply get_model_maintains|]. intros model.
  apply maintains_bind; [intros w Hw; exact Hw|]. intros _.
  apply maintains_bind; [apply maintains_lift|]. intros result.
  apply maintains_bind; [intros w Hw; exact Hw|]. intros now.
  intros w Hw. unfold bind, flush_transcription, commit, log, modify.
  destruct (transcriptions w !! video_id) eqn:Hnone; [exact Hw|].
  destruct (commit_fault E (commits w)); [exact Hw|].
  simpl. now apply P_transcribed.
Qed.

Lemma mark_error_maintains video_id msg : maintains I (_mark_error E video_id msg).
Proof using P_error.
  intros w Hw.
  unfold _mark_error, try_finally, try_except, bind, query_video, commit, log,
    modify, ret.
  destruct (videos w !! video_id); [|exact Hw].
  destruct (commit_fault E (commits w)); [exact Hw|].
  simpl. now apply P_error.
Qed.

Lemma worker_body_maintains video_id path :
  maintains I (worker_body E video_id path).
Proof using P_transcribing P_error P_transcribed.
  unfold worker_body.
  apply maintains_try_finally.
  - apply maintains_try_except; [apply transcribe_video_maintains|].
    intros e. apply maintains_bind; [intros w Hw; exact Hw|].
    intros _. apply mark_error_maintains.
  - intros w Hw. exact Hw.
Qed.

Lemma step_maintains a w : I w -> I (step E w a).
Proof using P_transcribing P_error P_transcribed.
  intros Hw. unfold step. destruct a as [video_id path|t|t].
  - unfold enqueue_transcription, bind, modify, get, ret. simpl.
    now destruct (match _worker_thread w with Some _ => _ | None => _ end).
  - unfold worker_take. simpl.
    destruct (threads w !! t) as [[| |]|]; try exact Hw.
    destruct (_task_queue w) as [|[i p] rest]; [exact Hw|].
    now destruct (bool_decide _).
  - unfold worker_run. simpl.
    destruct (threads w !! t) as [[|i p|]|]; try exact Hw.
    pose proof (worker_body_maintains i p (set_clock (clock w + 1)%Z w) Hw) as Hb.
    now destruct (worker_body E i p (set_clock (clock w + 1)%Z w)).
Qed.

Lemma run_maintains acts : forall w, I w -> I (run E w acts).
Proof using P_transcribing P_error P_transcribed.
  induction acts as [|a acts IH]; intros w Hw; [exact Hw|].
  simpl. apply IH. now apply step_maintains.
Qed.

End StoreInvariant.

(** X8.  Whatever jobs are submitted and processed, a transcription that
    is stored is never removed nor replaced. *)
Theorem transcriptions_only_grow w acts :
  transcriptions w ⊆ transcriptions (run E w acts).
Proof.
  apply (run_maintains (fun _ ts => transcriptions w ⊆ ts)); try done.
  intros vs ts id tr Hsub Hnone. etransitivity; [exact Hsub|].
  now apply insert_subseteq.
Qed.

(** X9.  If every video with status ["transcribed"] has a transcription,
    this remains so whatever jobs are submitted and processed, failures
    included. *)
Theorem transcribed_videos_keep_text w acts :
  transcribed_have_text w -> transcribed_have_text (run E w acts).
Proof.
  intros Hw.
  refine (run_maintains
            (fun vs ts => forall id v, vs !! id = Some v -> status v = TRANSCRIBED ->
                                       is_Some (ts !! id)) _ _ _ acts w Hw).
  - intros vs ts id Hp i v Hv Hs.
    destruct (decide (i = id)) as [->|Hne].
    + rewrite lookup_alter_eq in Hv. destruct (vs !! id); [|done].
      injection Hv as <-. discriminate Hs.
    + rewrite lookup_alter_ne in Hv by done. eauto.
  - intros vs ts id msg Hp i v Hv Hs.
    destruct (decide (i = id)) as [->|Hne].
    + rewrite lookup_alter_eq in Hv. destruct (vs !! id); [|done].
      injection Hv as <-. discriminate Hs.
    + rewrite lookup_alter_ne in Hv by done. eauto.
  - intros vs ts id tr Hp Hnone i v Hv Hs.
    destruct (decide (i = id)) as [->|Hne].
    + rewrite lookup_insert_eq. eauto.
    + rewrite lookup_insert_ne by done.
      rewrite lookup_alter_ne in Hv by done. eauto.
Qed.

(** *** The retry endpoint *)

(** [enqueue_transcription] touches neither the store nor the engine. *)
Lemma enqueue_effect video_id path w :
  exists w1,
    enqueue_transcription video_id path w = (Ok tt, w1)
    /\ store_view w1 = store_view w
    /\ (_model w1 = _model w /\ loads w1 = loads w)
    /\ _task_queue w1 = _task_queue w ++ [(video_id, path)]
    /\ (forall t, _worker_thread w = Some t -> is_alive t w = true ->
                  threads w1 = threads w /\ _worker_thread w1 = Some t).
Proof.
  unfold enqueue_transcription, bind, modify, get, ret. simpl.
  destruct (_worker_thread w) as [t|] eqn:Hwt.
  - destruct (is_alive t (set_queue_video_ids (_queue_video_ids w ++ [video_id]) w))
      eqn:Halive; simpl; eexists; (split; [done|]); simpl;
      do 3 (split; [done|]); intros t' [= <-] Ht'.
    + done.
    + unfold is_alive in *. simpl in Halive. congruence.
  - simpl. eexists. split; [done|]. simpl. do 3 (split; [done|]). done.
Qed.

(** What an accepted retry leaves behind. *)
Lemma retry_accepted video_id w v :
  videos w !! video_id = Some v ->
  status v = ERROR \/ status v = UPLOADED ->
  commit_fault E (commits w) = None ->
  commit_fault E (S (commits w)) = None ->
  exists msg w1,
    retry_transcription E video_id w = (Ok msg, w1)
    /\ videos w1
       = alter (fun v => mk_video (filename v) (filepath v) UPLOADED None)
           video_id (videos w)
    /\ transcriptions w1 = delete video_id (transcriptions w)
    /\ (commits w1 = S (commits w) \/ commits w1 = S (S (commits w)))
    /\ (_model w1 = _model w /\ loads w1 = loads w)
    /\ _task_queue w1 = _task_queue w ++ [(video_id, filepath v)]
    /\ (forall t, _worker_thread w = Some t -> is_alive t w = true ->
                  threads w1 = threads w /\ _worker_thread w1 = Some t).
Proof.
  intros Hv Hs Hc1 Hc2.
  unfold retry_transcription. unfold bind at 1. unfold query_video at 1.
  rewrite Hv.
  assert (Hok : negb (bool_decide (status v = ERROR)
                      || bool_decide (status v = UPLOADED)) = false).
  { destruct Hs as [Hs|Hs]; rewrite Hs; done. }
  rewrite Hok. unfold bind at 1. unfold get at 1.
  destruct (transcriptions w !! video_id) as [tr|] eqn:Htr.
  - unfold bind at 1. unfold commit at 1. rewrite Hc1.
    unfold bind at 1. unfold commit at 1. simpl commits. rewrite Hc2.
    unfold bind at 1.
    match goal with
    | |- context [enqueue_transcription video_id (filepath v) ?W] =>
      destruct (enqueue_effect video_id (filepath v) W)
        as (w1 & -> & Hstore & Heng & Hq & Hth)
    end.
    unfold store_view in Hstore. simpl in Hstore, Heng, Hq, Hth.
    injection Hstore as Hvs Hts Hn.
    unfold ret. eexists _, w1. split; [done|].
    do 2 (split; [done|]). split; [now right|]. done.
  - unfold bind at 1. unfold ret at 1.
    unfold bind at 1. unfold commit at 1. rewrite Hc1.
    unfold bind at 1.
    match goal with
    | |- context [enqueue_transcription video_id (filepath v) ?W] =>
      destruct (enqueue_effect video_id (filepath v) W)
        as (w1 & -> & Hstore & Heng & Hq & Hth)
    end.
    unfold store_view in Hstore. simpl in Hstore, Heng, Hq, Hth.
    injection Hstore as Hvs Hts Hn.
    unfold ret. eexists _, w1. split; [done|].
    split; [done|]. split; [now rewrite delete_id|]. split; [now left|]. done.
Qed.


(** A waiting worker that takes a job meeting no fault stores the
    transcription. *)
Lemma healthy_job_completes t video_id path rest w v res :
  threads w !! t = Some Waiting ->
  _task_queue w = (video_id, path) :: rest ->
  videos w !! video_id = Some v ->
  transcriptions w !! video_id = None ->
  engine_ready E w ->
  (forall m, transcribe E m path (WHISPER_LANGUAGE E) = Ok res) ->
  commit_fault E (commits w) = None ->
  commit_fault E (S (commits w)) = None ->
  let w2 := run E w [Take t; Run t] in
  threads w2 !! t = Some Waiting
  /\ _task_queue w2 = rest
  /\ videos w2 !! video_id = Some (with_status TRANSCRIBED v)
  /\ exists tr, transcriptions w2 !! video_id = Some tr /\ stored_as E res tr.
Proof.
  intros Ht Hq Hv Htr Hready Hres Hc1 Hc2 w2.
  assert (Hlt : t < length (threads w)) by (apply lookup_lt_is_Some; eauto).
  set (w3 := step E w (Take t)).
  assert (H3 : threads w3 = <[t := Working video_id path]> (threads w)
               /\ store_view w3 = store_view w
               /\ (_model w3 = _model w /\ loads w3 = loads w)
               /\ _task_queue w3 = rest).
  { subst w3. unfold step, worker_take. simpl. rewrite Ht, Hq. simpl.
    now destruct (bool_decide _). }
  destruct H3 as (Ht3 & Hs3 & (Hm3 & Hl3) & Hq3).
  assert (Hlast : w2 = step E w3 (Run t)) by reflexivity.
  clearbody w3.
  unfold store_view in Hs3. injection Hs3 as Hv3 Htr3 Hn3.
  destruct (TranscriptionSpec.worker_body_success E video_id path
              (set_clock (clock w3 + 1)%Z w3) v res)
    as (w4 & tr & Hbody & Hv4 & Htr4 & Hstored); simpl;
    rewrite ?Hv3, ?Htr3, ?Hn3; try done.
  { unfold engine_ready in *. simpl. now rewrite Hm3, Hl3. }
  pose proof (TranscriptionSpec.worker_body_sched E video_id path
                (set_clock (clock w3 + 1)%Z w3)) as Hframe.
  rewrite Hbody in Hframe. simpl in Hframe.
  unfold sched_view in Hframe. injection Hframe as Hq4 _ Ht4 _ _.
  assert (Hw2 : w2 = set_trace (trace w4 ++ [Finished video_id path])
                       (set_threads (<[t := Waiting]> (threads w4)) w4)).
  { rewrite Hlast. unfold step, worker_run. simpl.
    rewrite Ht3, list_lookup_insert_eq by done. now rewrite Hbody. }
  rewrite Hw2. simpl. split; [|split; [congruence|split; [done|by eexists]]].
  apply list_lookup_insert_eq. rewrite Ht4, Ht3, length_insert. done.
Qed.

(** X11.  A failed video that is retried is transcribed: after
    [retry_transcription] on a video with status ["error"], a waiting
    worker that meets no further fault takes the job and the video ends
    with status ["transcribed"], no error message, and its transcription
    stored, whether or not an older transcription was there. *)
Theorem retry_after_failure t video_id w v res :
  threads w !! t = Some Waiting ->
  _worker_thread w = Some t ->
  _task_queue w = [] ->
  videos w !! video_id = Some v ->
  status v = ERROR ->
  engine_ready E w ->
  (forall m, transcribe E m (filepath v) (WHISPER_LANGUAGE E) = Ok res) ->
  (forall n, commit_fault E n = None) ->
  let w1 := (retry_transcription E video_id w).2 in
  let w2 := run E w1 [Take t; Run t] in
  videos w2 !! video_id
  = Some (mk_video (filename v) (filepath v) TRANSCRIBED None)
  /\ (exists tr, transcriptions w2 !! video_id = Some tr /\ stored_as E res tr)
  /\ threads w2 !! t = Some Waiting.
Proof.
  intros Ht Hwt Hq Hv Hs Hready Hres Hc w1 w2.
  destruct (retry_accepted video_id w v Hv (or_introl Hs) (Hc _) (Hc _))
    as (msg & w1' & Hrun & Hvs & Hts & _ & (Hm & Hl) & Hq1 & Hth).
  assert (Hw1 : w1 = w1') by (subst w1; now rewrite Hrun).
  destruct (Hth t Hwt) as [Hth1 _]; [unfold is_alive; now rewrite Ht|].
  destruct (healthy_job_completes t video_id (filepath v) [] w1
              (mk_video (filename v) (filepath v) UPLOADED None) res)
    as (Hwait & _ & Hdone & Htext); try done; rewrite ?Hw1.
  - now rewrite Hth1.
  - now rewrite Hq1, Hq.
  - now rewrite Hvs, lookup_alter_eq, Hv.
  - rewrite Hts. apply lookup_delete_eq.
  - unfold engine_ready in *. now rewrite Hm, Hl.
Qed.

(** What the head of an iteration changes. *)
Lemma take_effect t video_id path rest w :
  threads w !! t = Some Waiting ->
  _task_queue w = (video_id, path) :: rest ->
  let w' := step E w (Take t) in
  threads w' !! t = Some (Working video_id path)
  /\ store_view w' = store_view w
  /\ (_model w' = _model w /\ loads w' = loads w).
Proof.
  intros Ht Hq w'. subst w'.
  assert (Hlt : t < length (threads w)) by (apply lookup_lt_is_Some; eauto).
  unfold step, worker_take. simpl. rewrite Ht, Hq. simpl.
  destruct (bool_decide _); simpl; (split; [|done]);
    now apply list_lookup_insert_eq.
Qed.

(** X12.  Retrying a video that is still waiting in the queue makes it
    fail: the video is then queued twice, the first job stores the
    transcription, and the second one, refused by the store, leaves the
    video with status ["error"] although its transcription is there. *)
Theorem retry_of_pending_video_fails t video_id w v res :
  threads w !! t = Some Waiting ->
  _worker_thread w = Some t ->
  _task_queue w = [(video_id, filepath v)] ->
  videos w !! video_id = Some v ->
  status v = UPLOADED ->
  transcriptions w !! video_id = None ->
  (forall n, load_model E (WHISPER_MODEL E) n = Ok tt) ->
  (forall m, transcribe E m (filepath v) (WHISPER_LANGUAGE E) = Ok res) ->
  (forall n, commit_fault E n = None) ->
  let w1 := (retry_transcription E video_id w).2 in
  let w2 := run E w1 [Take t; Run t; Take t; Run t] in
  (exists v', videos w2 !! video_id = Some v' /\ status v' = ERROR)
  /\ (exists tr, transcriptions w2 !! video_id = Some tr /\ stored_as E res tr)
  /\ threads w2 !! t = Some Waiting.
Proof.
  intros Ht Hwt Hq Hv Hs Htr Hload Hres Hc w1 w2.
  destruct (retry_accepted video_id w v Hv (or_intror Hs) (Hc _) (Hc _))
    as (msg & w1' & Hrun & Hvs & Hts & _ & _ & Hq1 & Hth).
  assert (Hw1 : w1 = w1') by (subst w1; now rewrite Hrun).
  destruct (Hth t Hwt) as [Hth1 _]; [unfold is_alive; now rewrite Ht|].
  set (v0 := mk_video (filename v) (filepath v) UPLOADED None).
  assert (Hsplit : w2 = step E (step E (run E w1 [Take t; Run t]) (Take t)) (Run t))
    by reflexivity.
  destruct (healthy_job_completes t video_id (filepath v)
              [(video_id, filepath v)] w1 v0 res)
    as (Hwait & Hqa & Hva & (tr & Htra & Hstored)); rewrite ?Hw1.
  { now rewrite Hth1. }
  { now rewrite Hq1, Hq. }
  { now rewrite Hvs, lookup_alter_eq, Hv. }
  { rewrite Hts. apply lookup_delete_eq. }
  { right. apply Hload. }
  { exact Hres. }
  { apply Hc. }
  { apply Hc. }
  set (wa := run E w1 [Take t; Run t]) in *. clearbody wa.
  destruct (take_effect t video_id (filepath v) [] wa Hwait Hqa)
    as (Hwork & Hstore & _).
  set (wb := step E wa (Take t)) in *. clearbody wb.
  unfold store_view in Hstore. injection Hstore as Hvb Htb _.
  destruct (duplicate_job_refused t video_id (filepath v)
              (set_clock (clock wb + 1)%Z wb)
              (with_status TRANSCRIBED v0) tr res)
    as (Hkeep & Hidle & (v' & m' & Hv' & Hs' & _)); simpl;
    rewrite ?Hvb, ?Htb; try done.
  { right. apply Hload. }
  assert (Hlast : w2 = worker_run E t (set_clock (clock wb + 1)%Z wb))
    by (now rewrite Hsplit).
  rewrite Hlast. split; [by exists v'|]. split; [|exact Hidle].
  exists tr. split; [|exact Hstored].
  rewrite Hkeep. simpl. now rewrite Htb.
Qed.

End PipelineMore.

Lemma get_model_failure_is_retried_witness :
  let w := boot Examples.library ∅ in
  let r := get_model MoreExamples.cold_start w in
  r.1 = Raise MoreExamples.out_of_memory
  /\ _model r.2 = None /\ _model_loading r.2 = true
  /\ exists m,
       (get_model MoreExamples.cold_start r.2).1 = Ok m
       /\ _model (get_model MoreExamples.cold_start r.2).2 = Some m
       /\ _model_loading (get_model MoreExamples.cold_start r.2).2 = false.
Proof.
  intros w r.
  destruct (get_model_failure_is_retried MoreExamples.cold_start w
              MoreExamples.out_of_memory)
    as (Hraise & Hnone & Hflag & Hnext).
  - reflexivity.
  - reflexivity.
  - refine (conj Hraise (conj Hnone (conj Hflag (Hnext _)))).
    vm_compute. reflexivity.
Defined.

Lemma second_transcription_is_refused_witness :
  let w' := worker_run Examples.env 0 MoreExamples.twice in
  transcriptions w' = transcriptions MoreExamples.twice
  /\ threads w' !! 0 = Some Waiting
  /\ exists v' msg,
       videos w' !! 2%Z = Some v' /\ status v' = ERROR
       /\ error_message v' = Some msg /\ length msg <= 500.
Proof.
  apply (second_transcription_is_refused Examples.env 0 2 Examples.good
           MoreExamples.twice
           (mk_video (py "good.mp4") Examples.good TRANSCRIBED None)
           (mk_transcription (py "こんにちは") (py "ja") (py "large-v3") 1%Z
              [mk_segment 0%Z 1500%Z (py "こんにちは")])
           Examples.whisper_answer).
  - vm_compute. reflexivity.
  - vm_compute. reflexivity.
  - vm_compute. reflexivity.
  - left. vm_compute. discriminate.
  - intros m. vm_compute. reflexivity.
  - reflexivity.
  - reflexivity.
Defined.

Lemma transcribed_videos_keep_text_witness :
  transcribed_have_text
    (run Examples.env (boot Examples.library ∅)
       [Enqueue 1 Examples.broken; Enqueue 2 Examples.good;
        Take 0; Run 0; Take 0; Run 0]).
Proof.
  apply (transcribed_videos_keep_text Examples.env (boot Examples.library ∅)).
  intros id v Hv Hs. simpl in Hv. unfold Examples.library in Hv.
  apply lookup_insert_Some in Hv as [[_ <-]|[_ Hv]]; [discriminate Hs|].
  apply lookup_insert_Some in Hv as [[_ <-]|[_ Hv]]; [discriminate Hs|].
  now rewrite lookup_empty in Hv.
Defined.


Lemma retry_after_failure_witness :
  let w1 := (retry_transcription Examples.env 4 MoreExamples.idle).2 in
  let w2 := run Examples.env w1 [Take 0; Run 0] in
  videos w2 !! 4%Z
  = Some (mk_video (py "d.mp4") (py "uploads/d.mp4") TRANSCRIBED None)
  /\ (exists tr, transcriptions w2 !! 4%Z = Some tr
                 /\ stored_as Examples.env Examples.whisper_answer tr)
  /\ threads w2 !! 0 = Some Waiting.
Proof.
  apply (retry_after_failure Examples.env 0 4 MoreExamples.idle
           (mk_video (py "d.mp4") (py "uploads/d.mp4") ERROR (Some (py "boom")))
           Examples.whisper_answer).
  - vm_compute. reflexivity.
  - vm_compute. reflexivity.
  - vm_compute. reflexivity.
  - vm_compute. reflexivity.
  - reflexivity.
  - right. reflexivity.
  - intros m. vm_compute. reflexivity.
  - intros n. reflexivity.
Defined.

Lemma retry_of_pending_video_fails_witness :
  let w1 := (retry_transcription Examples.env 2 MoreExamples.pending).2 in
  let w2 := run Examples.env w1 [Take 0; Run 0; Take 0; Run 0] in
  (exists v', videos w2 !! 2%Z = Some v' /\ status v' = ERROR)
  /\ (exists tr, transcriptions w2 !! 2%Z = Some tr
                 /\ stored_as Examples.env Examples.whisper_answer tr)
  /\ threads w2 !! 0 = Some Waiting.
Proof.
  apply (retry_of_pending_video_fails Examples.env 0 2 MoreExamples.pending
           (mk_video (py "good.mp4") Examples.good UPLOADED None)
           Examples.whisper_answer).
  - vm_compute. reflexivity.
  - vm_compute. reflexivity.
  - vm_compute. reflexivity.
  - vm_compute. reflexivity.
  - reflexivity.
  - vm_compute. reflexivity.
  - intros n. reflexivity.
  - intros m. vm_compute. reflexivity.
  - intros n. reflexivity.
Defined.

End TranscriptionMoreSpec.

(** ** The credentials kept in the settings *)

Module SettingsSpec.

Import Settings.




Lemma key_in_spec key keys : key_in key keys = true <-> PyStr key ∈ keys.
Proof.
  unfold key_in. rewrite existsb_exists. split.
  - intros (v & Hin & Hv). destruct v; try done.
    apply bool_decide_eq_true in Hv as ->. now apply list_elem_of_In.
  - intros Hin. exists (PyStr key). split; [now apply list_elem_of_In|].
    now apply bool_decide_eq_true.
Qed.

Lemma lstrip_head s c r : lstrip s = c :: r -> isspace c = false.
Proof.
  induction s as [|d s IH]; [done|]. simpl.
  destruct (isspace d) eqn:Hd; [exact IH|]. now intros [= <- _].
Qed.

Lemma lstrip_idem s : lstrip (lstrip s) = lstrip s.
Proof.
  induction s as [|c s IH]; [done|]. simpl.
  destruct (isspace c) eqn:Hc; [exact IH|]. simpl. now rewrite Hc.
Qed.

Lemma rstrip_cons c r : isspace c = false -> rstrip (c :: r) = c :: rstrip r.
Proof.
  intros Hc. unfold rstrip. simpl. rewrite GeminiMore.lstrip_app.
  case_bool_decide as Hr.
  - rewrite Hr. simpl. now rewrite Hc.
  - now rewrite rev_app_distr.
Qed.

Lemma rstrip_idem s : rstrip (rstrip s) = rstrip s.
Proof. unfold rstrip. now rewrite rev_involutive, lstrip_idem. Qed.

(** Stripping twice is stripping once. *)
Lemma strip_idem s : strip (strip s) = strip s.
Proof.
  unfold strip. destruct (lstrip s) as [|c r] eqn:Hs; [done|].
  pose proof (lstrip_head _ _ _ Hs) as Hc.
  rewrite (rstrip_cons c r Hc). simpl. rewrite Hc.
  now rewrite (rstrip_cons c _ Hc), rstrip_idem.
Qed.

(** The entries of a comma-separated list are stripped and not empty. *)
Lemma comma_list_clean s :
  Forall (fun k : str => k <> [] /\ strip k = k) (comma_list s).
Proof.
  apply Forall_forall. intros k Hk. unfold comma_list in Hk.
  apply list_elem_of_In, filter_In in Hk as [Hk Hne].
  apply negb_true_iff, bool_decide_eq_false in Hne. split; [done|].
  apply in_map_iff in Hk as (x & <- & _). apply strip_idem.
Qed.

Lemma env_keys_clean c :
  Forall (fun k : str => k <> [] /\ (strip k = k \/ k = GEMINI_API_KEY c))
    (env_keys c).
Proof.
  unfold env_keys.
  set (keys := if bool_decide (GEMINI_API_KEYS c = []) then []
               else comma_list (GEMINI_API_KEYS c)).
  assert (Hkeys : Forall (fun k : str => k <> [] /\ strip k = k) keys).
  { subst keys. case_bool_decide; [constructor|apply comma_list_clean]. }
  destruct (bool_decide (keys = [])
            && negb (bool_decide (GEMINI_API_KEY c = []))
            && negb (bool_decide (GEMINI_API_KEY c = PLACEHOLDER_KEY))) eqn:Hone.
  - apply andb_true_iff in Hone as [Hone _].
    apply andb_true_iff in Hone as [_ Hone].
    apply negb_true_iff, bool_decide_eq_false in Hone.
    constructor; [|constructor]. split; [done|now right].
  - eapply Forall_impl; [exact Hkeys|]. intros k [? ?]. split; [done|now left].
Qed.

Section Handlers.

Variable json_loads : str -> pyresult pyvalue.
Variable json_dumps : pyvalue -> str.
Variable float_nonzero : str -> bool.
Variable commit_fault : nat -> option pyexc.

(** Reading the credentials changes nothing. *)
Lemma get_api_keys_state st : (get_api_keys json_loads float_nonzero st).2 = st.
Proof.
  unfold Settings.get_api_keys, bind, _get_setting, try_except, lift, ret, raise.
  destruct (app_settings st !! GEMINI_KEYS_SETTING) as [[|c raw]|]; try done.
  destruct (json_loads (c :: raw)) as [v|e]; simpl.
  - destruct (iterate v) as [items|e]; simpl; [done|].
    now destruct (is_instance e _).
  - now destruct (is_instance e _).
Qed.

Lemma get_api_keys_run st keys :
  (get_api_keys json_loads float_nonzero st).1 = Ok keys ->
  get_api_keys json_loads float_nonzero st = (Ok keys, st).
Proof.
  intros H. pose proof (get_api_keys_state st) as Hs.
  destruct (get_api_keys json_loads float_nonzero st) as [r st'].
  simpl in *. congruence.
Qed.

(** No credential that is read is empty, null, zero or false. *)
Lemma get_api_keys_truthy st keys :
  (get_api_keys json_loads float_nonzero st).1 = Ok keys -> Forall (fun v => truthy float_nonzero v = true) keys.
Proof.
  unfold Settings.get_api_keys, bind, _get_setting, try_except, lift, ret, raise.
  destruct (app_settings st !! GEMINI_KEYS_SETTING) as [[|c raw]|]; simpl;
    try (intros [= <-]; constructor).
  destruct (json_loads (c :: raw)) as [v|e]; simpl.
  - destruct (iterate v) as [items|e]; simpl.
    + intros [= <-]. apply Forall_forall. intros x Hx.
      apply list_elem_of_In, filter_In in Hx. exact (proj2 Hx).
    + destruct (is_instance e _); simpl; [intros [= <-]; constructor|done].
  - destruct (is_instance e _); simpl; [intros [= <-]; constructor|done].
Qed.

Lemma filter_truthy keys :
  Forall (fun v => truthy float_nonzero v = true) keys -> List.filter (truthy float_nonzero) keys = keys.
Proof.
  induction 1 as [|v keys Hv _ IH]; [done|]. simpl. now rewrite Hv, IH.
Qed.

(** What is read back from a stored list. *)
Lemma get_api_keys_stored st (raw : str) keys :
  app_settings st !! GEMINI_KEYS_SETTING = Some raw ->
  raw <> [] ->
  json_loads raw = Ok (PyList keys) ->
  Forall (fun v => truthy float_nonzero v = true) keys ->
  get_api_keys json_loads float_nonzero st = (Ok keys, st).
Proof.
  intros Hrow Hraw Hloads Hkeys.
  unfold Settings.get_api_keys, bind, _get_setting, try_except, lift, ret.
  cbv beta. rewrite Hrow. destruct raw as [|c raw]; [done|].
  rewrite Hloads. simpl. now rewrite filter_truthy.
Qed.


(** The two refusals of [add_api_key]. *)
Lemma add_refused body st keys :
  (get_api_keys json_loads float_nonzero st).1 = Ok keys ->
  strip body = [] \/ PyStr (strip body) ∈ keys ->
  exists err, add_api_key json_loads json_dumps float_nonzero commit_fault body st = (Ok (ReplyError err), st).
Proof.
  intros Hget Hbad. apply get_api_keys_run in Hget.
  unfold Settings.add_api_key.
  destruct (bool_decide (strip body = [])) eqn:Hempty; [by eexists|].
  apply bool_decide_eq_false in Hempty.
  destruct Hbad as [Hbad|Hbad]; [done|].
  apply key_in_spec in Hbad. unfold bind. rewrite Hget, Hbad. by eexists.
Qed.

(** X14.  [add_api_key] refuses a key that is empty once stripped and a
    key that is already stored, and then leaves the store as it was. *)
Theorem add_api_key_refuses body st keys :
  (get_api_keys json_loads float_nonzero st).1 = Ok keys ->
  strip body = [] \/ PyStr (strip body) ∈ keys ->
  exists err, add_api_key json_loads json_dumps float_nonzero commit_fault body st = (Ok (ReplyError err), st).
Proof. apply add_refused. Qed.

(** X15.  A new key is stored stripped, at the end of the list: when the
    commit succeeds and the decoder reads back what the encoder wrote,
    the next reading gives the former credentials followed by the new
    one, the other settings are untouched, and adding the same key again
    is refused. *)
Theorem add_api_key_appends body st keys :
  (get_api_keys json_loads float_nonzero st).1 = Ok keys ->
  strip body <> [] ->
  PyStr (strip body) ∉ keys ->
  commit_fault (commits st) = None ->
  let keys' := keys ++ [PyStr (strip body)] in
  json_dumps (PyList keys') <> [] ->
  json_loads (json_dumps (PyList keys')) = Ok (PyList keys') ->
  let r := add_api_key json_loads json_dumps float_nonzero commit_fault body st in
  (exists msg, r.1 = Ok (ReplyMessage msg (S (length keys))))
  /\ get_api_keys json_loads float_nonzero r.2 = (Ok keys', r.2)
  /\ (forall name, name <> GEMINI_KEYS_SETTING ->
        app_settings r.2 !! name = app_settings st !! name)
  /\ exists err, add_api_key json_loads json_dumps float_nonzero commit_fault body r.2 = (Ok (ReplyError err), r.2).
Proof.
  intros Hget Hne Hnew Hc keys' Hraw Hloads r.
  pose proof (get_api_keys_truthy st keys Hget) as Htruthy.
  apply get_api_keys_run in Hget.
  assert (Hin : key_in (strip body) keys = false).
  { destruct (key_in (strip body) keys) eqn:Hin; [|done].
    now apply key_in_spec in Hin. }
  assert (Hr : r = (Ok (ReplyMessage (py "APIキーを追加しました") (length keys')),
                    mk_store (<[GEMINI_KEYS_SETTING := json_dumps (PyList keys')]>
                                (app_settings st)) (S (commits st)))).
  { subst r. unfold Settings.add_api_key.
    rewrite bool_decide_eq_false_2 by done.
    unfold bind at 1. rewrite Hget, Hin.
    unfold bind, _set_setting, commit, ret. now rewrite Hc. }
  assert (Hread : get_api_keys json_loads float_nonzero r.2 = (Ok keys', r.2)).
  { apply (get_api_keys_stored _ (json_dumps (PyList keys'))); try done.
    - rewrite Hr. simpl. apply lookup_insert_eq.
    - apply Forall_app. split; [done|]. constructor; [|constructor].
      simpl. now rewrite bool_decide_eq_false_2. }
  split; [|split; [exact Hread|split]].
  - rewrite Hr. simpl. eexists. f_equal. f_equal.
    subst keys'. rewrite length_app. simpl. lia.
  - intros name Hname. rewrite Hr. simpl. now apply lookup_insert_ne.
  - apply (add_refused body r.2 keys'); [now rewrite Hread|].
    right. subst keys'. set_solver.
Qed.

(** X16.  [remove_api_key] refuses an index outside the list and then
    changes nothing; for an index inside it, when the commit succeeds and
    the decoder reads back what the encoder wrote, the next reading gives
    the credentials without the one at that index and the count is one
    less. *)
Theorem remove_api_key_spec index st keys :
  (get_api_keys json_loads float_nonzero st).1 = Ok keys ->
  ((index < 0 \/ Z.of_nat (length keys) <= index)%Z ->
   exists err, remove_api_key json_loads json_dumps float_nonzero commit_fault index st = (Ok (ReplyError err), st))
  /\ ((0 <= index < Z.of_nat (length keys))%Z ->
      commit_fault (commits st) = None ->
      let keys' := delete (Z.to_nat index) keys in
      json_dumps (PyList keys') <> [] ->
      json_loads (json_dumps (PyList keys')) = Ok (PyList keys') ->
      let r := remove_api_key json_loads json_dumps float_nonzero commit_fault index st in
      (exists msg, r.1 = Ok (ReplyMessage msg (length keys - 1)))
      /\ get_api_keys json_loads float_nonzero r.2 = (Ok keys', r.2)
      /\ forall name, name <> GEMINI_KEYS_SETTING ->
           app_settings r.2 !! name = app_settings st !! name).
Proof.
  intros Hget.
  pose proof (get_api_keys_truthy st keys Hget) as Htruthy.
  apply get_api_keys_run in Hget. split.
  - intros Hout. unfold Settings.remove_api_key, bind. rewrite Hget.
    assert (Htest : ((index <? 0) || (Z.of_nat (length keys) <=? index))%Z = true).
    { apply orb_true_iff. destruct Hout; [left; lia|right; lia]. }
    rewrite Htest. by eexists.
  - intros Hin Hc keys' Hraw Hloads r.
    assert (Hr : r = (Ok (ReplyMessage (py "APIキーを削除しました") (length keys')),
                      mk_store (<[GEMINI_KEYS_SETTING := json_dumps (PyList keys')]>
                                  (app_settings st)) (S (commits st)))).
    { subst r. unfold Settings.remove_api_key. unfold bind at 1. rewrite Hget.
      assert (Htest : ((index <? 0) || (Z.of_nat (length keys) <=? index))%Z = false).
      { apply orb_false_iff. split; lia. }
      rewrite Htest. unfold bind, _set_setting, commit, ret. now rewrite Hc. }
    split; [|split].
    + rewrite Hr. simpl. eexists. f_equal. f_equal.
      subst keys'. rewrite length_delete; [done|].
      apply lookup_lt_is_Some. lia.
    + apply (get_api_keys_stored _ (json_dumps (PyList keys'))); try done.
      * rewrite Hr. simpl. apply lookup_insert_eq.
      * subst keys'. now apply Forall_delete.
    + intros name Hname. rewrite Hr. simpl. now apply lookup_insert_ne.
Qed.

Lemma settings_names_differ : GEMINI_KEYS_SETTING <> GEMINI_MODEL_SETTING.
Proof. discriminate. Qed.

(** When seeding has nothing to do. *)
Lemma seed_nothing_to_do c st :
  is_Some (app_settings st !! GEMINI_KEYS_SETTING)
  \/ (env_keys c = []
      /\ (is_Some (app_settings st !! GEMINI_MODEL_SETTING)
          \/ GEMINI_MODEL c = [])) ->
  _seed_api_keys_from_env json_dumps commit_fault c st = (Ok tt, st).
Proof.
  intros H. unfold Settings._seed_api_keys_from_env, bind, ret, _get_setting.
  cbv beta. destruct H as [[v Hv]|[Hk Hm]]; [now rewrite Hv|].
  destruct (app_settings st !! GEMINI_KEYS_SETTING); [done|].
  rewrite bool_decide_eq_true_2 by done.
  destruct Hm as [[m Hm]|Hm]; [now rewrite Hm|].
  destruct (app_settings st !! GEMINI_MODEL_SETTING); [done|].
  now rewrite bool_decide_eq_true_2.
Qed.

(** X17.  [_seed_api_keys_from_env] never overwrites: when the row of the
    credentials exists, whatever it holds, the store is left as it was;
    and when the commits succeed, seeding a second time changes
    nothing. *)
Theorem seed_never_overwrites c st :
  (is_Some (app_settings st !! GEMINI_KEYS_SETTING) ->
   _seed_api_keys_from_env json_dumps commit_fault c st = (Ok tt, st))
  /\ ((forall n, commit_fault n = None) ->
      let r := _seed_api_keys_from_env json_dumps commit_fault c st in
      r.1 = Ok tt
      /\ _seed_api_keys_from_env json_dumps commit_fault c r.2 = (Ok tt, r.2)).
Proof.
  split; [intros Hrow; apply seed_nothing_to_do; now left|]. intros Hc r.
  pose proof settings_names_differ as Hnames.
  assert (Hrun : exists st1,
            r = (Ok tt, st1)
            /\ (is_Some (app_settings st1 !! GEMINI_KEYS_SETTING)
                \/ (env_keys c = []
                    /\ (is_Some (app_settings st1 !! GEMINI_MODEL_SETTING)
                        \/ GEMINI_MODEL c = [])))).
  { subst r.
    destruct (app_settings st !! GEMINI_KEYS_SETTING) as [v|] eqn:Hrow.
    { exists st. split; [|left; rewrite Hrow; eauto].
      apply seed_nothing_to_do. left. rewrite Hrow. eauto. }
    unfold Settings._seed_api_keys_from_env, bind, ret, _get_setting, commit.
    cbv beta. rewrite Hrow.
    destruct (bool_decide (env_keys c = [])) eqn:Hkeys.
    - apply bool_decide_eq_true in Hkeys.
      destruct (app_settings st !! GEMINI_MODEL_SETTING) as [m|] eqn:Hmodel.
      + eexists. split; [reflexivity|]. right. rewrite Hmodel. eauto.
      + destruct (bool_decide (GEMINI_MODEL c = [])) eqn:Hm.
        * apply bool_decide_eq_true in Hm.
          eexists. split; [reflexivity|]. right. eauto.
        * rewrite Hc. eexists. split; [reflexivity|]. right.
          split; [done|]. left. simpl. rewrite lookup_insert_eq. eauto.
    - rewrite Hc. simpl. rewrite lookup_insert_ne by done.
      destruct (app_settings st !! GEMINI_MODEL_SETTING) as [m|] eqn:Hmodel.
      + eexists. split; [reflexivity|]. left. simpl.
        rewrite lookup_insert_eq. eauto.
      + destruct (bool_decide (GEMINI_MODEL c = [])) eqn:Hm.
        * eexists. split; [reflexivity|]. left. simpl.
          rewrite lookup_insert_eq. eauto.
        * rewrite Hc. eexists. split; [reflexivity|]. left. simpl.
          rewrite lookup_insert_ne by done. rewrite lookup_insert_eq. eauto. }
  destruct Hrun as (st1 & -> & Hdone). simpl. split; [done|].
  now apply seed_nothing_to_do.
Qed.

(** X18.  On a store without the row of the credentials,
    [_seed_api_keys_from_env] stores the credentials of the
    configuration: when the commits succeed and the decoder reads back
    what the encoder wrote, the next reading gives exactly these, none of
    them is empty, and each is stripped unless it is the single
    [GEMINI_API_KEY]. *)
Theorem seed_stores_env_keys c st :
  app_settings st !! GEMINI_KEYS_SETTING = None ->
  env_keys c <> [] ->
  (forall n, commit_fault n = None) ->
  let keys := map PyStr (env_keys c) in
  json_dumps (PyList keys) <> [] ->
  json_loads (json_dumps (PyList keys)) = Ok (PyList keys) ->
  let r := _seed_api_keys_from_env json_dumps commit_fault c st in
  r.1 = Ok tt
  /\ get_api_keys json_loads float_nonzero r.2 = (Ok keys, r.2)
  /\ Forall (fun k : str => k <> [] /\ (strip k = k \/ k = GEMINI_API_KEY c))
       (env_keys c).
Proof.
  intros Hrow Hkeys Hc keys Hraw Hloads r.
  pose proof settings_names_differ as Hnames.
  pose proof (env_keys_clean c) as Hclean.
  assert (Hrun : exists st1,
            r = (Ok tt, st1)
            /\ app_settings st1 !! GEMINI_KEYS_SETTING
               = Some (json_dumps (PyList keys))).
  { subst r.
    unfold Settings._seed_api_keys_from_env, bind, ret, _get_setting, commit.
    cbv beta. rewrite Hrow. rewrite bool_decide_eq_false_2 by done.
    rewrite Hc. simpl. rewrite lookup_insert_ne by done.
    destruct (app_settings st !! GEMINI_MODEL_SETTING) as [m|].
    - eexists. split; [reflexivity|]. apply lookup_insert_eq.
    - destruct (bool_decide (GEMINI_MODEL c = [])).
      + eexists. split; [reflexivity|]. apply lookup_insert_eq.
      + rewrite Hc. eexists. split; [reflexivity|]. simpl.
        rewrite lookup_insert_ne by done. apply lookup_insert_eq. }
  destruct Hrun as (st1 & -> & Hstored). simpl.
  split; [done|]. split; [|exact Hclean].
  apply (get_api_keys_stored _ (json_dumps (PyList keys))); try done.
  subst keys. apply Forall_map. eapply Forall_impl; [exact Hclean|].
  intros k [Hk _]. simpl. now rewrite bool_decide_eq_false_2.
Qed.

End Handlers.

Import SettingsExamples.


Lemma add_api_key_refuses_witness :
  exists err,
    add_api_key JsonRef.loads dumps_plain nonzero_text no_fault
      (py "  short ") two_keys
    = (Ok (ReplyError err), two_keys).
Proof.
  apply (add_api_key_refuses JsonRef.loads dumps_plain nonzero_text no_fault
           (py "  short ") two_keys [PyStr first_key; PyStr short_key]).
  - vm_compute. reflexivity.
  - right. apply list_elem_of_In. right. left. vm_compute. reflexivity.
Defined.

Lemma add_api_key_appends_witness :
  let r := add_api_key JsonRef.loads dumps_plain nonzero_text no_fault
             (py " third-key ") two_keys in
  (exists msg, r.1 = Ok (ReplyMessage msg 3))
  /\ get_api_keys JsonRef.loads nonzero_text r.2
     = (Ok [PyStr first_key; PyStr short_key; PyStr (py "third-key")], r.2).
Proof.
  destruct (add_api_key_appends JsonRef.loads dumps_plain nonzero_text no_fault
              (py " third-key ") two_keys [PyStr first_key; PyStr short_key])
    as (Hreply & Hread & _).
  - vm_compute. reflexivity.
  - vm_compute. discriminate.
  - intros Hin. apply list_elem_of_In in Hin.
    destruct Hin as [Hin|[Hin|[]]]; vm_compute in Hin; discriminate Hin.
  - reflexivity.
  - vm_compute. discriminate.
  - vm_compute. reflexivity.
  - exact (conj Hreply Hread).
Defined.

Lemma remove_api_key_spec_witness :
  (exists err,
     remove_api_key JsonRef.loads dumps_plain nonzero_text no_fault 2 two_keys
     = (Ok (ReplyError err), two_keys))
  /\ let r := remove_api_key JsonRef.loads dumps_plain nonzero_text no_fault
                0 two_keys in
     (exists msg, r.1 = Ok (ReplyMessage msg 1))
     /\ get_api_keys JsonRef.loads nonzero_text r.2 = (Ok [PyStr short_key], r.2).
Proof.
  destruct (remove_api_key_spec JsonRef.loads dumps_plain nonzero_text no_fault
              2 two_keys [PyStr first_key; PyStr short_key])
    as [Hout _]; [vm_compute; reflexivity|].
  destruct (remove_api_key_spec JsonRef.loads dumps_plain nonzero_text no_fault
              0 two_keys [PyStr first_key; PyStr short_key])
    as [_ Hin]; [vm_compute; reflexivity|].
  split.
  - apply Hout. right. simpl. lia.
  - destruct Hin as (Hreply & Hread & _).
    + simpl. lia.
    + reflexivity.
    + vm_compute. discriminate.
    + vm_compute. reflexivity.
    + exact (conj Hreply Hread).
Defined.

Lemma seed_never_overwrites_witness :
  _seed_api_keys_from_env dumps_plain no_fault from_env two_keys = (Ok tt, two_keys)
  /\ let r := _seed_api_keys_from_env dumps_plain no_fault from_env fresh in
     r.1 = Ok tt
     /\ _seed_api_keys_from_env dumps_plain no_fault from_env r.2 = (Ok tt, r.2).
Proof.
  destruct (seed_never_overwrites dumps_plain no_fault from_env two_keys)
    as [Hkeep _].
  destruct (seed_never_overwrites dumps_plain no_fault from_env fresh)
    as [_ Htwice].
  split.
  - apply Hkeep. vm_compute. eauto.
  - apply Htwice. intros n. reflexivity.
Defined.

Lemma seed_stores_env_keys_witness :
  let r := _seed_api_keys_from_env dumps_plain no_fault from_env fresh in
  r.1 = Ok tt
  /\ get_api_keys JsonRef.loads nonzero_text r.2
     = (Ok [PyStr (py "key-one"); PyStr (py "key-two")], r.2).
Proof.
  destruct (seed_stores_env_keys JsonRef.loads dumps_plain nonzero_text no_fault
              from_env fresh)
    as (Hok & Hread & _).
  - reflexivity.
  - vm_compute. discriminate.
  - intros n. reflexivity.
  - vm_compute. discriminate.
  - vm_compute. reflexivity.
  - exact (conj Hok Hread).
Defined.

End SettingsSpec.

(** ** The caller of the dispatcher *)

Module AnalysisSpec.

Import Gemini Analysis.
Import TranscriptionMore.

Section CallFacts.

Variable is_runtime_error : pyexc -> bool.
Variable str_lower : str -> str.
Variable json_loads : str -> pyresult pyvalue.
Variable generate_content : str -> str -> str -> nat -> pyresult str.

Local Abbreviation limited := (is_rate_limit_error str_lower).
Local Abbreviation call :=
  (run_ai_analysis_call is_runtime_error str_lower json_loads generate_content).

(** The error of an empty pool is reported as such. *)
Lemma http_error_config :
  is_runtime_error (RuntimeError CONFIG_MSG) = true ->
  http_error is_runtime_error (RuntimeError CONFIG_MSG)
  = HTTPException 503 CONFIG_MSG.
Proof. intros Hrt. unfold http_error. now rewrite Hrt. Qed.

(** The error of an exhausted pool is reported as such, unless the text
    of the last refusal holds the phrase of the other error. *)
Lemma http_error_exhausted s :
  is_runtime_error (RuntimeError (EXHAUSTED_PREFIX ++ s)) = true ->
  contains NO_KEY_MSG s = false ->
  http_error is_runtime_error (RuntimeError (EXHAUSTED_PREFIX ++ s))
  = HTTPException 503 WAIT_MSG.
Proof.
  intros Hrt Hs. unfold http_error. rewrite Hrt.
  change (exc_str (RuntimeError (EXHAUSTED_PREFIX ++ s)))
    with (EXHAUSTED_PREFIX ++ s).
  assert (H1 : contains (py "APIキーが設定されていません") (EXHAUSTED_PREFIX ++ s)
               = false)
    by (vm_compute in Hs |- *; exact Hs).
  assert (H2 : contains (py "レート制限") (EXHAUSTED_PREFIX ++ s) = true)
    by (vm_compute; reflexivity).
  cbv zeta. now rewrite H1, H2.
Qed.

(** X19.  The caller turns the two failures of the pool into the status
    503: with no credential its detail is the configuration message and
    the service is not called; when every credential is rate limited its
    detail asks to wait, provided the text of the last refusal does not
    hold the phrase by which the configuration error is recognised. *)
Theorem analysis_unavailable keys model prompt st :
  (forall msg, is_runtime_error (RuntimeError msg) = true) ->
  (keys = [] ->
   call keys model prompt st = (Raise (HTTPException 503 CONFIG_MSG), st))
  /\ (forall errs,
        keys <> [] ->
        (forall j, j < length keys ->
           generate_content (credential_at keys (_key_index st + j)) model prompt
             (length (api_calls st) + j) = Raise (errs j)
           /\ limited (errs j) = true) ->
        contains NO_KEY_MSG (exc_str (errs (length keys - 1))) = false ->
        call keys model prompt st
        = (Raise (HTTPException 503 WAIT_MSG),
           mk_gemini (_key_index st + length keys)
             (api_calls st ++ rotation keys (_key_index st) (length keys)))).
Proof.
  intros Hrt. split.
  - intros ->. unfold run_ai_analysis_call, try_except. simpl.
    unfold raise. now rewrite http_error_config.
  - intros errs Hne Hall Hphrase. unfold run_ai_analysis_call, try_except.
    rewrite (GeminiMore.dispatch_all_limited str_lower json_loads
               generate_content keys model prompt st errs Hne Hall).
    unfold raise. now rewrite http_error_exhausted.
Qed.

(** X20.  An error of the service that is neither a rate limit nor a
    [RuntimeError] reaches the client as status 500, with at most the
    first 200 characters of its text after a fixed prefix. *)
Theorem analysis_unexpected_error keys model prompt st errs k e :
  k < length keys ->
  (forall j, j < k ->
     generate_content (credential_at keys (_key_index st + j)) model prompt
       (length (api_calls st) + j) = Raise (errs j)
     /\ limited (errs j) = true) ->
  generate_content (credential_at keys (_key_index st + k)) model prompt
    (length (api_calls st) + k) = Raise e ->
  limited e = false ->
  is_runtime_error e = false ->
  exists detail,
    call keys model prompt st
    = (Raise (HTTPException 500 (UNEXPECTED_PREFIX ++ detail)),
       mk_gemini (_key_index st + S k)
         (api_calls st ++ rotation keys (_key_index st) (S k)))
    /\ detail = take 200 (exc_str e)
    /\ length detail <= 200.
Proof.
  intros Hk Hall Hcall Hfatal Hrt. exists (take 200 (exc_str e)).
  split; [|split; [done|rewrite length_take; lia]].
  unfold run_ai_analysis_call, try_except.
  rewrite (GeminiMore.dispatch_fatal str_lower json_loads generate_content
             keys model prompt st errs k e Hk Hall Hcall Hfatal).
  unfold raise, http_error. now rewrite Hrt.
Qed.

End CallFacts.

Lemma analysis_unavailable_witness :
  run_ai_analysis_call (fun e => is_instance e "RuntimeError") ascii_lower
    JsonRef.loads Examples.all_limited [] (py "gemini-2.5-flash") (py "prompt")
    (mk_gemini 5 [])
  = (Raise (HTTPException 503 CONFIG_MSG), mk_gemini 5 [])
  /\ run_ai_analysis_call (fun e => is_instance e "RuntimeError") ascii_lower
       JsonRef.loads Examples.all_limited Examples.pool2
       (py "gemini-2.5-flash") (py "prompt") (mk_gemini 5 [])
     = (Raise (HTTPException 503 WAIT_MSG),
        mk_gemini 7 [py "key-b"; py "key-a"]).
Proof.
  destruct (analysis_unavailable (fun e => is_instance e "RuntimeError")
              ascii_lower JsonRef.loads Examples.all_limited []
              (py "gemini-2.5-flash") (py "prompt") (mk_gemini 5 []))
    as [Hnone _]; [reflexivity|].
  destruct (analysis_unavailable (fun e => is_instance e "RuntimeError")
              ascii_lower JsonRef.loads Examples.all_limited Examples.pool2
              (py "gemini-2.5-flash") (py "prompt") (mk_gemini 5 []))
    as [_ Hall]; [reflexivity|].
  split; [now apply Hnone|].
  apply (Hall (fun _ => Examples.quota_error)).
  - discriminate.
  - intros j Hj. split; reflexivity.
  - vm_compute. reflexivity.
Defined.

Lemma analysis_unexpected_error_witness :
  exists detail,
    run_ai_analysis_call (fun e => is_instance e "RuntimeError") ascii_lower
      JsonRef.loads MoreExamples.denied_after_quota Examples.pool3
      (py "gemini-2.5-flash") (py "prompt") (mk_gemini 3 [])
    = (Raise (HTTPException 500 (UNEXPECTED_PREFIX ++ detail)),
       mk_gemini 5 [py "key-a"; py "key-b"])
    /\ detail = take 200 (exc_str MoreExamples.denied)
    /\ length detail <= 200.
Proof.
  apply (analysis_unexpected_error (fun e => is_instance e "RuntimeError")
           ascii_lower JsonRef.loads MoreExamples.denied_after_quota
           Examples.pool3 (py "gemini-2.5-flash") (py "prompt") (mk_gemini 3 [])
           (fun _ => Examples.quota_error) 1 MoreExamples.denied).
  - simpl. lia.
  - intros j Hj. assert (j = 0) as -> by lia. split; reflexivity.
  - reflexivity.
  - reflexivity.
  - reflexivity.
Defined.

End AnalysisSpec.
